(** * Double-labeling shortest-path trace engine (src/services/dijkstra.ts)

    A shallow embedding of [runDoubleLabeling] over stdpp finite maps.
    - The JS object [nodeStates : Record<string, AlgorithmNodeState>] is a
      [gmap string AlgorithmNodeState]; reading a missing key and then one of
      its fields ([nodeStates[x].status]) throws a [TypeError], modelled by
      the [TypeError] outcome of [Result].
    - Distances are JS numbers whose only non-integer value reached by the
      engine is the [Infinity] sentinel: [Fin z] or [Inf].  Edge weights are
      integers (the editor creates them with [Math.floor]).
    - A snapshot is taken with [JSON.parse(JSON.stringify(nodeStates))];
      [JSON.stringify] writes every non-finite number as [null], so a stored
      distance is a JSON number or [null] ([jnum]).
    - Step descriptions are template strings; they are modelled by the
      constructor of the template used and the values interpolated into it
      (node ids stand for the labels the code looks up for display).
    - Positional attributes (x, y) of nodes are not read by the engine and
      are left out.  Keys inherited from [Object.prototype] are not
      modelled. *)

From stdpp Require Import gmap strings list fin_maps.
From Stdlib Require Import ZArith Lia.

(** ** Data model (src/types.ts) *)

Inductive dist : Type :=
| Fin (z : Z)
| Inf.

(** [a < b] on JS numbers restricted to integers and [Infinity]. *)
Definition dist_lt (a b : dist) : bool :=
  match a, b with
  | Fin x, Fin y => (x <? y)%Z
  | Fin _, Inf => true
  | Inf, _ => false
  end.

(** [a + w] for a finite weight [w]: [Infinity + w = Infinity]. *)
Definition dist_add (a : dist) (w : Z) : dist :=
  match a with
  | Fin x => Fin (x + w)
  | Inf => Inf
  end.

Inductive NodeStatus : Type :=
| unvisited
| temporary
| permanent.

#[global] Instance NodeStatus_eq_dec : EqDecision NodeStatus.
Proof. solve_decision. Defined.

Record AlgorithmNodeState : Type := {
  distance : dist;
  parent : option string;
  status : NodeStatus
}.

Record Node : Type := {
  id : string;
  label : option string
}.

Record Edge : Type := {
  edge_id : string;
  source : string;
  target : string;
  weight : Z
}.

(** What [JSON.parse(JSON.stringify(x))] gives back for a number [x]. *)
Inductive jnum : Type :=
| JNum (z : Z)
| JNull.

Definition json_dist (d : dist) : jnum :=
  match d with
  | Fin z => JNum z
  | Inf => JNull
  end.

(** An entry of a stored snapshot, after the JSON round trip. *)
Record SnapState : Type := {
  s_distance : jnum;
  s_parent : option string;
  s_status : NodeStatus
}.

Definition json_state (s : AlgorithmNodeState) : SnapState :=
  {| s_distance := json_dist (distance s);
     s_parent := parent s;
     s_status := status s |}.

(** [JSON.parse(JSON.stringify(nodeStates))]. *)
Definition json_clone (m : gmap string AlgorithmNodeState) : gmap string SnapState :=
  json_state <$> m.

(** The template strings of the descriptions, with their interpolated values. *)
Inductive Desc : Type :=
| DInit                                        (* "初始化：..." *)
| DNoReach                                     (* "没有更多可达的临时节点。算法结束。" *)
| DFinalize (u : string) (d : dist)            (* "选定临时标号最小的节点 u (d=..)" *)
| DArrive (u : string)                         (* "已到达终点 u。最短路径找到。" *)
| DUpdate (v : string) (old new : dist) (u : string) (* "更新节点 v 的标号：由 old 更新为 new (来自 u)" *)
| DNoImprove (v : string) (cur new : dist).    (* "检查节点 v：现有距离 cur <= 新路径 new，不更新。" *)

Record AlgorithmStep : Type := {
  stepIndex : nat;
  description : Desc;
  activeNodeId : option string;
  checkingEdgeId : option string;
  nodeStates : gmap string SnapState;
  permanentNodes : list string
}.

(** ** Outcomes: a normal return or a thrown [TypeError] *)

Inductive Result (A : Type) : Type :=
| Ok (a : A)
| TypeError.
Arguments Ok {A} a.
Arguments TypeError {A}.

(** Exceptions propagate: [x ← r; k] runs [k] only when [r] returned. *)
#[global] Instance Result_bind : MBind Result :=
  fun A B k r => match r with Ok a => k a | TypeError => TypeError end.
#[global] Instance Result_ret : MRet Result := fun A a => Ok a.

(** ** The engine's working state (the locals of [runDoubleLabeling]) *)

Record RunState : Type := {
  store : gmap string AlgorithmNodeState;   (* nodeStates *)
  perms : list string;                      (* permanentNodes *)
  steps : list AlgorithmStep                (* steps *)
}.

(** [nodeStates[k]] followed by a field access: throws when [k] is absent. *)
Definition get (m : gmap string AlgorithmNodeState) (k : string)
  : Result AlgorithmNodeState :=
  match m !! k with
  | Some s => Ok s
  | None => TypeError
  end.

(** [snapshot(desc, active, edge, perms)] *)
Definition snapshot (desc : Desc) (active edge : option string) (st : RunState)
  : RunState :=
  {| store := store st;
     perms := perms st;
     steps := steps st ++
       [{| stepIndex := length (steps st);
           description := desc;
           activeNodeId := active;
           checkingEdgeId := edge;
           nodeStates := json_clone (store st);
           permanentNodes := perms st |}] |}.

(** The initial label of [node.id]. *)
Definition init_state (nid startNodeId : string) : AlgorithmNodeState :=
  if String.eqb nid startNodeId
  then {| distance := Fin 0; parent := Some startNodeId; status := temporary |}
  else {| distance := Inf; parent := None; status := unvisited |}.

(** [nodes.forEach(node => { nodeStates[node.id] = ... })] *)
Definition init_states (nodes : list Node) (startNodeId : string)
  : gmap string AlgorithmNodeState :=
  fold_left (fun m n => <[id n := init_state (id n) startNodeId]> m) nodes ∅.

(** The selection scan: [for (const node of nodes) { if (status !== permanent)
    { if (distance < minDistance) { minDistance = ...; u = node.id } } }]. *)
Fixpoint scan (m : gmap string AlgorithmNodeState) (nodes : list Node)
  (minDistance : dist) (u : option string) : Result (dist * option string) :=
  match nodes with
  | [] => Ok (minDistance, u)
  | n :: ns =>
      s ← get m (id n);
      if bool_decide (status s <> permanent) && dist_lt (distance s) minDistance
      then scan m ns (distance s) (Some (id n))
      else scan m ns minDistance u
  end.

(** [const targetId = edge.source === u ? edge.target : edge.source] *)
Definition other_end (u : string) (e : Edge) : string :=
  if String.eqb (source e) u then target e else source e.

(** [edges.filter(e => e.source === u || e.target === u)] *)
Definition incident (u : string) (edges : list Edge) : list Edge :=
  List.filter (fun e => String.eqb (source e) u || String.eqb (target e) u) edges.

(** One iteration of [for (const edge of neighbors)]. *)
Definition relax_edge (u : string) (st : RunState) (e : Edge) : Result RunState :=
  let targetId := other_end u e in
  t ← get (store st) targetId;
  if bool_decide (status t <> permanent) then
    su ← get (store st) u;
    let newDist := dist_add (distance su) (weight e) in
    let currentDist := distance t in
    if dist_lt newDist currentDist then
      let st' := {| store := <[targetId := {| distance := newDist;
                                              parent := Some u;
                                              status := temporary |}]> (store st);
                    perms := perms st; steps := steps st |} in
      Ok (snapshot (DUpdate targetId currentDist newDist u)
            (Some u) (Some (edge_id e)) st')
    else
      Ok (snapshot (DNoImprove targetId currentDist newDist)
            (Some u) (Some (edge_id e)) st)
  else Ok st.

Fixpoint relax_all (u : string) (es : list Edge) (st : RunState) : Result RunState :=
  match es with
  | [] => Ok st
  | e :: es' => st' ← relax_edge u st e; relax_all u es' st'
  end.

(** [nodeStates[u].status = 'permanent'; permanentNodes.push(u)] *)
Definition finalize (u : string) (st : RunState) : Result RunState :=
  s ← get (store st) u;
  Ok {| store := <[u := {| distance := distance s; parent := parent s;
                           status := permanent |}]> (store st);
        perms := perms st ++ [u];
        steps := steps st |}.

(** [while (unvisitedCount > 0) { ... }]; [fuel] is [unvisitedCount], which
    every iteration that does not [break] decrements. *)
Fixpoint loop (unvisitedCount : nat) (nodes : list Node) (edges : list Edge)
  (endNodeId : string) (st : RunState) : Result RunState :=
  match unvisitedCount with
  | O => Ok st
  | S cnt =>
      p ← scan (store st) nodes Inf None;
      match p with
      | (Fin _, Some u) =>
          st1 ← finalize u st;
          su ← get (store st1) u;
          let st2 := snapshot (DFinalize u (distance su)) (Some u) None st1 in
          if String.eqb u endNodeId
          then Ok (snapshot (DArrive u) (Some u) None st2)
          else
            st3 ← relax_all u (incident u edges) st2;
            loop cnt nodes edges endNodeId st3
      | _ => Ok (snapshot DNoReach None None st)
      end
  end.

(** [runDoubleLabeling(nodes, edges, startNodeId, endNodeId)] *)
Definition runDoubleLabeling (nodes : list Node) (edges : list Edge)
  (startNodeId endNodeId : string) : Result (list AlgorithmStep) :=
  let st0 := {| store := init_states nodes startNodeId; perms := []; steps := [] |} in
  let st1 := snapshot DInit None None st0 in
  st ← loop (length nodes) nodes edges endNodeId st1;
  Ok (steps st).

(** ** The example graph (src/constants.ts) *)

Definition mkNode (i l : string) : Node := {| id := i; label := Some l |}.
Definition mkEdge (i a b : string) (w : Z) : Edge :=
  {| edge_id := i; source := a; target := b; weight := w |}.

Definition INITIAL_NODES : list Node :=
  [mkNode "1" "v1"; mkNode "2" "v2"; mkNode "3" "v3";
   mkNode "4" "v4"; mkNode "5" "v5"; mkNode "6" "v6"].

Definition INITIAL_EDGES : list Edge :=
  [mkEdge "e1" "1" "2" 4; mkEdge "e2" "1" "3" 2; mkEdge "e3" "2" "3" 1;
   mkEdge "e4" "2" "4" 5; mkEdge "e5" "3" "4" 8; mkEdge "e6" "3" "5" 10;
   mkEdge "e7" "4" "5" 2; mkEdge "e8" "4" "6" 6; mkEdge "e9" "5" "6" 3].

Definition last_step (r : Result (list AlgorithmStep)) : option AlgorithmStep :=
  match r with
  | Ok l => last l
  | TypeError => None
  end.

Definition final_entry (r : Result (list AlgorithmStep)) (k : string) : option SnapState :=
  s ← last_step r; nodeStates s !! k.

(** A graph whose end node "2" has no edge to the start node "1". *)
Definition DISCONNECTED_NODES : list Node := [mkNode "1" "v1"; mkNode "2" "v2"].

(** An edge of negative weight, and an edge to an id that is no node. *)
Definition NEG_EDGES : list Edge := [mkEdge "e1" "1" "2" (-3)].
Definition DANGLING_EDGES : list Edge := [mkEdge "e1" "1" "9" 1].

(** The initialization step of a run. *)
Definition init_step (nodes : list Node) (startNodeId : string) : AlgorithmStep :=
  {| stepIndex := 0; description := DInit; activeNodeId := None;
     checkingEdgeId := None;
     nodeStates := json_clone (init_states nodes startNodeId);
     permanentNodes := [] |}.

(** The terminal step when nothing is reachable right after initialization. *)
Definition noreach_step (nodes : list Node) (startNodeId : string) : AlgorithmStep :=
  {| stepIndex := 1; description := DNoReach; activeNodeId := None;
     checkingEdgeId := None;
     nodeStates := json_clone (init_states nodes startNodeId);
     permanentNodes := [] |}.

(** ** Auxiliary notions for the trace properties *)

Definition rank (s : NodeStatus) : nat :=
  match s with
  | unvisited => 0
  | temporary => 1
  | permanent => 2
  end.

(** The ids finalized by a list of steps, in trace order. *)
Definition fin_desc (d : Desc) : list string :=
  match d with
  | DFinalize u _ => [u]
  | _ => []
  end.

Definition fin_ids (l : list AlgorithmStep) : list string :=
  concat (map (fun s => fin_desc (description s)) l).

(** [a <= b] on distances, [Infinity] being the largest. *)
Definition dist_le (a b : dist) : Prop :=
  match a, b with
  | Fin x, Fin y => (x <= y)%Z
  | _, Inf => True
  | Inf, Fin _ => False
  end.

(** Whether [relax_edge] looks at [e] at all: its other end is a
    non-permanent node. *)
Definition examined (m : gmap string AlgorithmNodeState) (u : string) (e : Edge)
  : bool :=
  match m !! other_end u e with
  | Some t => bool_decide (status t <> permanent)
  | None => false
  end.

(** * Theorems *)

(** ** Computations on concrete graphs *)

Lemma example_trace_descriptions :
  (d ← last_step (runDoubleLabeling INITIAL_NODES INITIAL_EDGES "1" "6");
   Some (description d)) = Some (DArrive "6").
Proof. vm_compute. reflexivity. Qed.

(** C3 (as stated): on the example graph the final permanent distance of
    v6 is 11.  It is not: the final step records 13. *)
Lemma c3_v6_not_11 :
  final_entry (runDoubleLabeling INITIAL_NODES INITIAL_EDGES "1" "6") "6"
  <> Some {| s_distance := JNum 11; s_parent := Some "5"; s_status := permanent |}
  /\ (e ← final_entry (runDoubleLabeling INITIAL_NODES INITIAL_EDGES "1" "6") "6";
      Some (s_distance e)) <> Some (JNum 11).
Proof. vm_compute. split; congruence. Qed.

(** C3 (amended): on the example graph (v1..v6, start v1, end v6) the final
    step records v1 = 0 (root), v3 = 2 via v1, v2 = 3 via v3, v4 = 8 via v2,
    v5 = 10 via v4 and v6 = 13 via v5, all permanent: the shortest path
    v1-v3-v2-v4-v5-v6 has length 13. *)
Theorem c3_example_final_labels :
  let r := runDoubleLabeling INITIAL_NODES INITIAL_EDGES "1" "6" in
  final_entry r "1" = Some {| s_distance := JNum 0; s_parent := Some "1"; s_status := permanent |} /\
  final_entry r "3" = Some {| s_distance := JNum 2; s_parent := Some "1"; s_status := permanent |} /\
  final_entry r "2" = Some {| s_distance := JNum 3; s_parent := Some "3"; s_status := permanent |} /\
  final_entry r "4" = Some {| s_distance := JNum 8; s_parent := Some "2"; s_status := permanent |} /\
  final_entry r "5" = Some {| s_distance := JNum 10; s_parent := Some "4"; s_status := permanent |} /\
  final_entry r "6" = Some {| s_distance := JNum 13; s_parent := Some "5"; s_status := permanent |}.
Proof. vm_compute. repeat split. Qed.

(** C1 (as stated): an empty node list fails with a GraphInvalid error and
    produces no step.  It does not: the run returns one step. *)
Lemma c1_empty_nodes_not_rejected :
  runDoubleLabeling [] [] "1" "1" = Ok [init_step [] "1"] /\
  runDoubleLabeling [] [] "1" "1" <> Ok [].
Proof. split; [reflexivity | discriminate]. Qed.

(** C2: in the disconnected graph the final step stores the unreached end
    node "2" with distance [null], while the working map holds [Infinity]. *)
Theorem c2_unreached_distance_is_null :
  final_entry (runDoubleLabeling DISCONNECTED_NODES [] "1" "2") "2"
    = Some {| s_distance := JNull; s_parent := None; s_status := unvisited |} /\
  init_states DISCONNECTED_NODES "1" !! "2"
    = Some {| distance := Inf; parent := None; status := unvisited |}.
Proof. vm_compute. split; reflexivity. Qed.

(** ** Distances *)

Lemma dist_lt_le a b : dist_lt a b = true -> dist_le a b.
Proof. destruct a, b; simpl; try done. intros H%Z.ltb_lt. lia. Qed.

Lemma dist_not_lt_le a b : dist_lt a b = false -> dist_le b a.
Proof. destruct a, b; simpl; try done. intros H%Z.ltb_ge. lia. Qed.

Lemma dist_lt_trans a b c :
  dist_lt a b = true -> dist_lt b c = true -> dist_lt a c = true.
Proof.
  destruct a, b, c; simpl; try done.
  intros H1%Z.ltb_lt H2%Z.ltb_lt. apply Z.ltb_lt. lia.
Qed.

Lemma dist_lt_not_lt a b c :
  dist_lt a c = true -> dist_lt b c = false -> dist_lt a b = true.
Proof.
  destruct a, b, c; simpl; try done.
  intros H1%Z.ltb_lt H2%Z.ltb_ge. apply Z.ltb_lt. lia.
Qed.

Lemma dist_le_refl a : dist_le a a.
Proof. destruct a; simpl; [lia | done]. Qed.

Lemma dist_le_trans a b c : dist_le a b -> dist_le b c -> dist_le a c.
Proof. destruct a, b, c; simpl; try done. lia. Qed.

Lemma dist_le_lt_trans a b c :
  dist_le a b -> dist_lt b c = true -> dist_le a c.
Proof. intros H1 H2. eapply dist_le_trans; [exact H1 | by apply dist_lt_le]. Qed.

(** ** Initialization *)

Lemma init_states_fold (nodes : list Node) (s : string)
    (m : gmap string AlgorithmNodeState) (k : string) :
  fold_left (fun m n => <[id n := init_state (id n) s]> m) nodes m !! k =
  if decide (k ∈ map id nodes) then Some (init_state k s) else m !! k.
Proof.
  revert m. induction nodes as [|n ns IH]; intros m; cbn [fold_left].
  - case_decide as H; [set_solver | done].
  - rewrite IH. cbn [map].
    case_decide as H1; case_decide as H2.
    + done.
    + exfalso. apply H2. by apply elem_of_cons; right.
    + apply elem_of_cons in H2 as [->|H2]; [|done].
      by rewrite lookup_insert_eq.
    + rewrite lookup_insert_ne; [done|].
      intros Heq. subst k. apply H2. apply elem_of_cons. by left.
Qed.

Lemma init_states_lookup (nodes : list Node) (s k : string) :
  init_states nodes s !! k =
  if decide (k ∈ map id nodes) then Some (init_state k s) else None.
Proof. unfold init_states. rewrite init_states_fold. by case_decide. Qed.

(** ** The selection scan *)

Lemma scan_spec (m : gmap string AlgorithmNodeState) (nodes : list Node)
    (d0 : dist) (u0 : option string) (d : dist) (u : option string) :
  scan m nodes d0 u0 = Ok (d, u) ->
  (d = d0 /\ u = u0 /\
   (forall n b, n ∈ nodes -> m !! id n = Some b -> status b <> permanent ->
      dist_lt (distance b) d0 = false)) \/
  (exists i n a, nodes !! i = Some n /\ u = Some (id n) /\
     m !! id n = Some a /\ status a <> permanent /\ distance a = d /\
     dist_lt d d0 = true /\
     (forall n' b, n' ∈ nodes -> m !! id n' = Some b -> status b <> permanent ->
        dist_le d (distance b)) /\
     (forall j n' b, j < i -> nodes !! j = Some n' -> m !! id n' = Some b ->
        status b <> permanent -> dist_lt d (distance b) = true)).
Proof.
  revert d0 u0. induction nodes as [|n ns IH]; intros d0 u0 Hs; simpl in Hs.
  - injection Hs as -> ->. left. repeat split. intros n b Hn. set_solver.
  - unfold get in Hs. destruct (m !! id n) as [a|] eqn:Ha; [|discriminate].
    simpl in Hs.
    destruct (bool_decide (status a <> permanent)) eqn:Hp;
      [apply bool_decide_eq_true in Hp | apply bool_decide_eq_false in Hp];
      simpl in Hs.
    + destruct (dist_lt (distance a) d0) eqn:Hlt.
      * right. destruct (IH _ _ Hs) as [(-> & -> & Hall) |
          (i & n' & a' & Hi & -> & Ha' & Hp' & <- & Hlt' & Hmin & Hfirst)].
        -- exists 0, n, a. repeat split; try done.
           ++ intros n'' b Hin Hb Hpb. apply elem_of_cons in Hin as [->|Hin].
              ** rewrite Ha in Hb. injection Hb as <-. apply dist_le_refl.
              ** apply dist_not_lt_le. eauto.
           ++ intros j n'' b Hj. lia.
        -- exists (S i), n', a'. repeat split; try done.
           ++ eapply dist_lt_trans; eauto.
           ++ intros n'' b Hin Hb Hpb. apply elem_of_cons in Hin as [->|Hin]; [|eauto].
              rewrite Ha in Hb. injection Hb as <-. by apply dist_lt_le.
           ++ intros [|j] n'' b Hj Hjn Hb Hpb; simpl in Hjn.
              ** injection Hjn as <-. rewrite Ha in Hb. by injection Hb as <-.
              ** eapply Hfirst; eauto. lia.
      * destruct (IH _ _ Hs) as [(-> & -> & Hall) |
          (i & n' & a' & Hi & -> & Ha' & Hp' & <- & Hlt' & Hmin & Hfirst)].
        -- left. repeat split. intros n'' b Hin Hb Hpb.
           apply elem_of_cons in Hin as [->|Hin]; [|eauto].
           rewrite Ha in Hb. by injection Hb as <-.
        -- right. exists (S i), n', a'. repeat split; try done.
           ++ intros n'' b Hin Hb Hpb. apply elem_of_cons in Hin as [->|Hin]; [|eauto].
              rewrite Ha in Hb. injection Hb as <-.
              apply dist_lt_le. eapply dist_lt_not_lt; eauto.
           ++ intros [|j] n'' b Hj Hjn Hb Hpb; simpl in Hjn.
              ** injection Hjn as <-. rewrite Ha in Hb. injection Hb as <-.
                 eapply dist_lt_not_lt; eauto.
              ** eapply Hfirst; eauto. lia.
    + destruct (IH _ _ Hs) as [(-> & -> & Hall) |
          (i & n' & a' & Hi & -> & Ha' & Hp' & <- & Hlt' & Hmin & Hfirst)].
      * left. repeat split. intros n'' b Hin Hb Hpb.
        apply elem_of_cons in Hin as [->|Hin]; [|eauto].
        rewrite Ha in Hb. injection Hb as <-. done.
      * right. exists (S i), n', a'. repeat split; try done.
        -- intros n'' b Hin Hb Hpb. apply elem_of_cons in Hin as [->|Hin]; [|eauto].
           rewrite Ha in Hb. injection Hb as <-. done.
        -- intros [|j] n'' b Hj Hjn Hb Hpb; simpl in Hjn.
           ++ injection Hjn as <-. rewrite Ha in Hb. injection Hb as <-. done.
           ++ eapply Hfirst; eauto. lia.
Qed.

(** C4: when the selection scan of an iteration yields a node to finalize
    ([u] with the finite distance [d]), [u] is a non-permanent node of the
    list whose distance [d] is the smallest among all non-permanent nodes
    (unvisited nodes carrying [Inf]), and every non-permanent node listed
    before it has a strictly larger distance: ties go to the first node in
    the caller's list order. *)
Theorem c4_selection_min_first (m : gmap string AlgorithmNodeState)
    (nodes : list Node) (d : Z) (u : string) :
  scan m nodes Inf None = Ok (Fin d, Some u) ->
  exists i n a,
    nodes !! i = Some n /\ id n = u /\ m !! u = Some a /\
    status a <> permanent /\ distance a = Fin d /\
    (forall n' b, n' ∈ nodes -> m !! id n' = Some b -> status b <> permanent ->
       dist_le (Fin d) (distance b)) /\
    (forall j n' b, j < i -> nodes !! j = Some n' -> m !! id n' = Some b ->
       status b <> permanent -> dist_lt (Fin d) (distance b) = true).
Proof.
  intros Hs. destruct (scan_spec _ _ _ _ _ _ Hs) as [(_ & ? & _) |
    (i & n & a & Hi & Hu & Ha & Hp & Hd & _ & Hmin & Hfirst)]; [discriminate|].
  injection Hu as Hu. subst u. exists i, n, a. repeat split; done.
Qed.

Lemma c4_selection_min_first_witness :
  scan (init_states INITIAL_NODES "1") INITIAL_NODES Inf None = Ok (Fin 0, Some "1") /\
  exists i n a,
    INITIAL_NODES !! i = Some n /\ id n = "1" /\
    init_states INITIAL_NODES "1" !! "1" = Some a /\
    status a <> permanent /\ distance a = Fin 0 /\
    (forall n' b, n' ∈ INITIAL_NODES -> init_states INITIAL_NODES "1" !! id n' = Some b ->
       status b <> permanent -> dist_le (Fin 0) (distance b)) /\
    (forall j n' b, j < i -> INITIAL_NODES !! j = Some n' ->
       init_states INITIAL_NODES "1" !! id n' = Some b ->
       status b <> permanent -> dist_lt (Fin 0) (distance b) = true).
Proof.
  split; [vm_compute; reflexivity|].
  apply (c4_selection_min_first (init_states INITIAL_NODES "1") INITIAL_NODES 0 "1").
  vm_compute. reflexivity.
Defined.

(** ** Relaxation *)

(** The state after [relax_edge] looked at an edge whose other end [t] is
    not permanent ([su] is the label of the finalized node). *)
Definition relaxed (u : string) (e : Edge) (su t : AlgorithmNodeState)
    (st : RunState) : RunState :=
  let v := other_end u e in
  let cand := dist_add (distance su) (weight e) in
  if dist_lt cand (distance t)
  then snapshot (DUpdate v (distance t) cand u) (Some u) (Some (edge_id e))
         {| store := <[v := {| distance := cand; parent := Some u;
                               status := temporary |}]> (store st);
            perms := perms st; steps := steps st |}
  else snapshot (DNoImprove v (distance t) cand) (Some u) (Some (edge_id e)) st.

Lemma relax_edge_inv (u : string) (st st' : RunState) (e : Edge)
    (su : AlgorithmNodeState) :
  store st !! u = Some su -> status su = permanent ->
  relax_edge u st e = Ok st' ->
  (examined (store st) u e = false /\ st' = st) \/
  (exists t, store st !! other_end u e = Some t /\ status t <> permanent /\
     examined (store st) u e = true /\ st' = relaxed u e su t st).
Proof.
  intros Hu Hsu Hr. unfold relax_edge, examined, get in *.
  destruct (store st !! other_end u e) as [t|] eqn:Ht; [|discriminate].
  cbn in Hr. destruct (bool_decide (status t <> permanent)) eqn:Hp.
  - right. exists t. apply bool_decide_eq_true in Hp. repeat split; try done.
    rewrite Hu in Hr. cbn in Hr. unfold relaxed.
    destruct (dist_lt _ _); congruence.
  - left. split; [done | congruence].
Qed.

Lemma relax_edge_ok (u : string) (st : RunState) (e : Edge)
    (su : AlgorithmNodeState) :
  store st !! u = Some su -> is_Some (store st !! other_end u e) ->
  exists st', relax_edge u st e = Ok st'.
Proof.
  intros Hu [t Ht]. unfold relax_edge, get. rewrite Ht. cbn.
  destruct (bool_decide _); [|eauto]. rewrite Hu. cbn.
  destruct (dist_lt _ _); eauto.
Qed.

Lemma examined_insert_temp (m : gmap string AlgorithmNodeState) (u v : string)
    (t x : AlgorithmNodeState) (e : Edge) :
  m !! v = Some t -> status t <> permanent -> status x <> permanent ->
  examined (<[v := x]> m) u e = examined m u e.
Proof.
  intros Hv Ht Hx. unfold examined.
  destruct (decide (other_end u e = v)) as [Heq|Hne].
  - rewrite Heq, lookup_insert_eq, Hv. by rewrite !bool_decide_eq_true_2.
  - by rewrite lookup_insert_ne by congruence.
Qed.

(** Facts about one relaxed edge that the trace invariants use. *)
Lemma relaxed_facts (u : string) (e : Edge) (su t : AlgorithmNodeState)
    (st : RunState) :
  store st !! u = Some su -> status su = permanent ->
  store st !! other_end u e = Some t -> status t <> permanent ->
  let st' := relaxed u e su t st in
  store st' !! u = Some su /\
  (forall k, is_Some (store st' !! k) <-> is_Some (store st !! k)) /\
  (forall e', examined (store st') u e' = examined (store st) u e') /\
  perms st' = perms st /\
  exists s, steps st' = steps st ++ [s] /\
    activeNodeId s = Some u /\ checkingEdgeId s = Some (edge_id e) /\
    nodeStates s = json_clone (store st') /\ permanentNodes s = perms st /\
    fin_desc (description s) = [] /\ stepIndex s = length (steps st).
Proof.
  intros Hu Hsu Ht Hpt st'. subst st'.
  assert (Hne : other_end u e <> u) by (intros Heq; rewrite Heq in Ht; congruence).
  unfold relaxed. destruct (dist_lt _ _); cbn.
  - repeat split.
    + by rewrite lookup_insert_ne by congruence.
    + intros [x Hx]. destruct (decide (other_end u e = k)) as [<-|Hk]; [by eexists|].
      by rewrite lookup_insert_ne in Hx.
    + intros [x Hx]. destruct (decide (other_end u e = k)) as [<-|Hk].
      * rewrite lookup_insert_eq. by eexists.
      * rewrite lookup_insert_ne by done. by eexists.
    + intros e'. eapply examined_insert_temp; eauto; done.
    + eexists. repeat split.
  - repeat split; try done. eexists. repeat split.
Qed.

Lemma relax_all_spec (u : string) (su : AlgorithmNodeState) (es : list Edge)
    (st : RunState) :
  store st !! u = Some su -> status su = permanent ->
  (forall e, e ∈ es -> is_Some (store st !! other_end u e)) ->
  exists st' new, relax_all u es st = Ok st' /\ steps st' = steps st ++ new /\
    map checkingEdgeId new =
      map (fun e => Some (edge_id e)) (List.filter (examined (store st) u) es) /\
    Forall (fun s => activeNodeId s = Some u) new.
Proof.
  revert st. induction es as [|e es IH]; intros st Hu Hsu Hkeys; cbn.
  - exists st, []. by rewrite app_nil_r.
  - destruct (relax_edge_ok u st e su Hu) as [st1 Hst1].
    { apply Hkeys. apply elem_of_cons. by left. }
    rewrite Hst1. cbn.
    destruct (relax_edge_inv u st st1 e su Hu Hsu Hst1) as [[Hex ->] | (t & Ht & Hpt & Hex & ->)].
    + rewrite Hex. apply IH; try done. intros e' He'. apply Hkeys. by apply elem_of_cons; right.
    + destruct (relaxed_facts u e su t st Hu Hsu Ht Hpt) as
        (Hu1 & Hdom & Hexam & _ & s & Hsteps & Hact & Hchk & _).
      destruct (IH (relaxed u e su t st)) as (st' & new & Hrun & Hst' & Hmap & Hall); try done.
      { intros e' He'. apply Hdom. apply Hkeys. by apply elem_of_cons; right. }
      exists st', (s :: new). rewrite Hex. split; [done|]. split; [|split].
      * by rewrite Hst', Hsteps, <- app_assoc.
      * cbn. rewrite Hchk, Hmap. f_equal. f_equal. apply filter_ext. intros e'. by rewrite Hexam.
      * by constructor.
Qed.

(** C5: after finalizing [u], the engine walks the edges incident to [u]
    (either endpoint equal to [u]) in list order.  For one edge with other
    end [v] (label [t]): when [v] is [u] itself or is permanent the edge is
    skipped with no step; otherwise, with [cand = distance u + weight], a
    strict improvement sets [v] to [cand], parent [u], status temporary and
    emits an update step, and anything else leaves the labels unchanged and
    emits a no-improvement step.  Over the whole list, exactly one step is
    emitted per examined edge, in the order of the edge list. *)
Theorem c5_relaxation (u : string) (su : AlgorithmNodeState) (edges : list Edge)
    (st : RunState) :
  store st !! u = Some su -> status su = permanent ->
  (forall e, e ∈ incident u edges -> is_Some (store st !! other_end u e)) ->
  (forall e t, store st !! other_end u e = Some t ->
     let v := other_end u e in
     let cand := dist_add (distance su) (weight e) in
     ((v = u \/ status t = permanent) -> relax_edge u st e = Ok st) /\
     (v <> u -> status t <> permanent -> dist_lt cand (distance t) = true ->
        relax_edge u st e =
          Ok (snapshot (DUpdate v (distance t) cand u) (Some u) (Some (edge_id e))
                {| store := <[v := {| distance := cand; parent := Some u;
                                      status := temporary |}]> (store st);
                   perms := perms st; steps := steps st |})) /\
     (v <> u -> status t <> permanent -> dist_lt cand (distance t) = false ->
        relax_edge u st e =
          Ok (snapshot (DNoImprove v (distance t) cand) (Some u) (Some (edge_id e)) st))) /\
  (exists st' new, relax_all u (incident u edges) st = Ok st' /\
     steps st' = steps st ++ new /\
     map checkingEdgeId new =
       map (fun e => Some (edge_id e))
         (List.filter (examined (store st) u) (incident u edges)) /\
     Forall (fun s => activeNodeId s = Some u) new).
Proof.
  intros Hu Hsu Hkeys. split.
  - intros e t Ht v cand. subst v cand.
    unfold relax_edge, get. rewrite Ht. cbn -[bool_decide]. split; [|split].
    + intros Hskip. assert (Hp : status t = permanent).
      { destruct Hskip as [Heq|Hp]; [|done]. rewrite Heq, Hu in Ht. congruence. }
      rewrite bool_decide_eq_false_2; [done|]. intros Hn. by apply Hn.
    + intros _ Hp Hlt. rewrite bool_decide_eq_true_2 by done. rewrite Hu. cbn.
      by rewrite Hlt.
    + intros _ Hp Hlt. rewrite bool_decide_eq_true_2 by done. rewrite Hu. cbn.
      by rewrite Hlt.
  - by apply relax_all_spec with su.
Qed.

Lemma c5_relaxation_witness :
  let st := {| store := <[ "1" := {| distance := Fin 0; parent := Some "1";
                                     status := permanent |} ]>
                          (init_states INITIAL_NODES "1");
               perms := ["1"]; steps := [] |} in
  exists su, store st !! "1" = Some su /\ status su = permanent /\
  (forall e, e ∈ incident "1" INITIAL_EDGES -> is_Some (store st !! other_end "1" e)) /\
  (forall e t, store st !! other_end "1" e = Some t ->
     let v := other_end "1" e in
     let cand := dist_add (distance su) (weight e) in
     ((v = "1" \/ status t = permanent) -> relax_edge "1" st e = Ok st) /\
     (v <> "1" -> status t <> permanent -> dist_lt cand (distance t) = true ->
        relax_edge "1" st e =
          Ok (snapshot (DUpdate v (distance t) cand "1") (Some "1") (Some (edge_id e))
                {| store := <[v := {| distance := cand; parent := Some "1";
                                      status := temporary |}]> (store st);
                   perms := perms st; steps := steps st |})) /\
     (v <> "1" -> status t <> permanent -> dist_lt cand (distance t) = false ->
        relax_edge "1" st e =
          Ok (snapshot (DNoImprove v (distance t) cand) (Some "1") (Some (edge_id e)) st))) /\
  (exists st' new, relax_all "1" (incident "1" INITIAL_EDGES) st = Ok st' /\
     steps st' = steps st ++ new /\
     map checkingEdgeId new =
       map (fun e => Some (edge_id e))
         (List.filter (examined (store st) "1") (incident "1" INITIAL_EDGES)) /\
     Forall (fun s => activeNodeId s = Some "1") new).
Proof.
  intros st. eexists. split; [vm_compute; reflexivity|]. split; [reflexivity|].
  assert (Hk : forall e, e ∈ incident "1" INITIAL_EDGES -> is_Some (store st !! other_end "1" e)).
  { intros e He. vm_compute in He.
    repeat (apply elem_of_cons in He as [->|He]; [vm_compute; eauto|]).
    by apply elem_of_nil in He. }
  split; [exact Hk|].
  apply (c5_relaxation "1" _ INITIAL_EDGES st); [vm_compute; reflexivity | reflexivity | exact Hk].
Defined.

(** ** One iteration of the main loop *)

Definition perm_state (a : AlgorithmNodeState) : AlgorithmNodeState :=
  {| distance := distance a; parent := parent a; status := permanent |}.

Definition finalized (st : RunState) (u : string) (a : AlgorithmNodeState)
  : RunState :=
  {| store := <[u := perm_state a]> (store st);
     perms := perms st ++ [u];
     steps := steps st |}.

Lemma loop_S (cnt : nat) (nodes : list Node) (edges : list Edge)
    (endNodeId : string) (st st' : RunState) :
  loop (S cnt) nodes edges endNodeId st = Ok st' ->
  (exists p, scan (store st) nodes Inf None = Ok p /\
     (forall d u, p <> (Fin d, Some u)) /\
     st' = snapshot DNoReach None None st) \/
  (exists d u a, scan (store st) nodes Inf None = Ok (Fin d, Some u) /\
     store st !! u = Some a /\
     let st2 := snapshot (DFinalize u (distance a)) (Some u) None
                  (finalized st u a) in
     ((u = endNodeId /\ st' = snapshot (DArrive u) (Some u) None st2) \/
      (u <> endNodeId /\ exists st3,
         relax_all u (incident u edges) st2 = Ok st3 /\
         loop cnt nodes edges endNodeId st3 = Ok st'))).
Proof.
  intros Hl. cbn [loop] in Hl.
  destruct (scan (store st) nodes Inf None) as [[d u]|] eqn:Hs; cbn in Hl; [|discriminate].
  destruct d as [d|]; [destruct u as [u|]|].
  - right. exists d, u. unfold finalize, get in Hl. cbn in Hl.
    destruct (store st !! u) as [a|] eqn:Ha; cbn in Hl; [|discriminate].
    exists a. split; [done|]. split; [done|].
    rewrite lookup_insert_eq in Hl. cbn in Hl.
    destruct (String.eqb u endNodeId) eqn:Hend.
    + left. apply String.eqb_eq in Hend. split; [done|]. injection Hl as <-. done.
    + right. apply String.eqb_neq in Hend. split; [done|].
      destruct (relax_all _ _ _) as [st3|] eqn:Hr; cbn in Hl; [|discriminate].
      by exists st3.
  - injection Hl as <-. left. exists (Fin d, None). repeat split. congruence.
  - injection Hl as <-. left. exists (Inf, u). repeat split. congruence.
Qed.

(** An invariant of the relaxation phase of a finalized node [u]. *)
Lemma relax_all_preserves (u : string) (su : AlgorithmNodeState)
    (Q : RunState -> Prop) (es : list Edge) (st st' : RunState) :
  (forall st e t, Q st -> e ∈ es -> store st !! u = Some su ->
     store st !! other_end u e = Some t -> status t <> permanent ->
     Q (relaxed u e su t st)) ->
  status su = permanent -> store st !! u = Some su -> Q st ->
  relax_all u es st = Ok st' -> Q st'.
Proof.
  intros HQ Hsu. revert st. induction es as [|e es IH]; intros st Hu Hst Hr; cbn in Hr.
  - by injection Hr as <-.
  - destruct (relax_edge u st e) as [st1|] eqn:Hst1; cbn in Hr; [|discriminate].
    destruct (relax_edge_inv u st st1 e su Hu Hsu Hst1) as [[_ ->] | (t & Ht & Hpt & _ & ->)].
    + eapply IH; eauto. intros st0 e0 t0 ? ?. apply HQ; try done. by apply elem_of_cons; right.
    + destruct (relaxed_facts u e su t st Hu Hsu Ht Hpt) as (Hu1 & _).
      eapply IH; [| exact Hu1 | | exact Hr].
      * intros st0 e0 t0 ? ?. apply HQ; try done. by apply elem_of_cons; right.
      * apply HQ; try done. by apply elem_of_cons; left.
Qed.

Section LoopInvariant.
  Context (nodes : list Node) (edges : list Edge) (endNodeId : string).
  (** [I]: at the head of the loop; [Q u su]: while relaxing the edges of
      the finalized node [u] (label [su]); [R]: on return. *)
  Context (I R : RunState -> Prop) (Q : string -> AlgorithmNodeState -> RunState -> Prop).
  Hypothesis I_exit : forall st, I st -> R st.
  Hypothesis I_noreach : forall st, I st -> R (snapshot DNoReach None None st).
  Hypothesis I_finalize : forall st d u a, I st ->
    scan (store st) nodes Inf None = Ok (Fin d, Some u) -> store st !! u = Some a ->
    Q u (perm_state a)
      (snapshot (DFinalize u (distance a)) (Some u) None (finalized st u a)).
  Hypothesis Q_arrive : forall u su st, Q u su st -> u = endNodeId ->
    R (snapshot (DArrive u) (Some u) None st).
  Hypothesis Q_relax : forall u su st e t, Q u su st -> u <> endNodeId ->
    e ∈ incident u edges -> store st !! u = Some su ->
    store st !! other_end u e = Some t -> status t <> permanent ->
    Q u su (relaxed u e su t st).
  Hypothesis Q_done : forall u su st, Q u su st -> u <> endNodeId -> I st.

Lemma loop_invariant (cnt : nat) (st st' : RunState) :
    I st -> loop cnt nodes edges endNodeId st = Ok st' -> R st'.
  Proof.
    revert st. induction cnt as [|cnt IH]; intros st Hst Hl.
    - cbn in Hl. injection Hl as <-. auto.
    - destruct (loop_S cnt nodes edges endNodeId st st' Hl) as
        [(p & _ & _ & ->) | (d & u & a & Hs & Ha & [[Hend ->] | (Hend & st3 & Hr & Hl3)])].
      + auto.
      + eapply Q_arrive; [|done]. eauto.
      + apply (IH st3); [|done]. apply (Q_done u (perm_state a)); [|done].
        apply (relax_all_preserves u (perm_state a) (fun s => Q u (perm_state a) s)
                 (incident u edges)
                 (snapshot (DFinalize u (distance a)) (Some u) None (finalized st u a))
                 st3); try done.
        * intros st0 e t HQ He Hu Ht Hpt. eapply Q_relax; eauto.
        * cbn. apply lookup_insert_eq.
        * eauto.
  Qed.
End LoopInvariant.

(** ** The list of permanent nodes *)

Definition perm_in_store (m : gmap string AlgorithmNodeState) (x : string) : Prop :=
  exists a, m !! x = Some a /\ status a = permanent.

(** Every step lists in [permanentNodes] the nodes finalized so far, in
    order, and these are the nodes permanent in its snapshot. *)
Definition StepsPerm (l : list AlgorithmStep) : Prop :=
  forall i s, l !! i = Some s ->
    permanentNodes s = fin_ids (take (S i) l) /\
    (forall x, x ∈ permanentNodes s <->
       exists a, nodeStates s !! x = Some a /\ s_status a = permanent).

Definition Inv10 (st : RunState) : Prop :=
  perms st = fin_ids (steps st) /\
  (forall x, x ∈ perms st <-> perm_in_store (store st) x) /\
  NoDup (perms st) /\
  StepsPerm (steps st).

Lemma fin_ids_app (l1 l2 : list AlgorithmStep) :
  fin_ids (l1 ++ l2) = fin_ids l1 ++ fin_ids l2.
Proof. unfold fin_ids. by rewrite map_app, concat_app. Qed.

Lemma fin_ids_snoc (l : list AlgorithmStep) (s : AlgorithmStep) :
  fin_ids (l ++ [s]) = fin_ids l ++ fin_desc (description s).
Proof. rewrite fin_ids_app. cbn. by rewrite app_nil_r. Qed.

Lemma lookup_json_clone (m : gmap string AlgorithmNodeState) (x : string) :
  json_clone m !! x = json_state <$> m !! x.
Proof. unfold json_clone. apply lookup_fmap. Qed.

Lemma json_clone_perm (m : gmap string AlgorithmNodeState) (x : string) :
  (exists a, json_clone m !! x = Some a /\ s_status a = permanent) <->
  perm_in_store m x.
Proof.
  rewrite lookup_json_clone. unfold perm_in_store.
  destruct (m !! x) as [b|]; cbn; split.
  - intros (a & Ha & Hp). injection Ha as <-. by exists b.
  - intros (a & Ha & Hp). injection Ha as <-. by exists (json_state b).
  - intros (a & Ha & _). discriminate.
  - intros (a & Ha & _). discriminate.
Qed.

Lemma snapshot_steps_perm (desc : Desc) (act edg : option string) (st : RunState) :
  StepsPerm (steps st) ->
  perms st = fin_ids (steps st) ++ fin_desc desc ->
  (forall x, x ∈ perms st <-> perm_in_store (store st) x) ->
  StepsPerm (steps (snapshot desc act edg st)) /\
  perms (snapshot desc act edg st) = fin_ids (steps (snapshot desc act edg st)).
Proof.
  intros Hsp Hp Hin. unfold snapshot. cbn [steps perms store].
  rewrite fin_ids_snoc. cbn [description]. split; [|done].
  intros i s Hs. apply lookup_snoc_Some in Hs as [[Hi Hs] | [-> <-]].
  - destruct (Hsp i s Hs) as [H1 H2]. split; [|done].
    rewrite take_app_le; [done | lia].
  - cbn [permanentNodes nodeStates]. split.
    + rewrite take_ge by (rewrite length_app; cbn; lia). by rewrite fin_ids_snoc.
    + intros x. rewrite json_clone_perm. apply Hin.
Qed.

Lemma inv10_snapshot (desc : Desc) (act edg : option string) (st : RunState) :
  fin_desc desc = [] -> Inv10 st -> Inv10 (snapshot desc act edg st).
Proof.
  intros Hd (Hp & Hin & Hnd & Hsp).
  destruct (snapshot_steps_perm desc act edg st Hsp) as [Hsp' Hp'].
  { by rewrite Hd, app_nil_r. }
  { done. }
  split; [exact Hp'|]. split; [exact Hin|]. split; [exact Hnd|]. exact Hsp'.
Qed.

Lemma inv10_finalize (st : RunState) (u : string) (a : AlgorithmNodeState) :
  Inv10 st -> store st !! u = Some a -> status a <> permanent ->
  Inv10 (snapshot (DFinalize u (distance a)) (Some u) None (finalized st u a)).
Proof.
  intros (Hp & Hin & Hnd & Hsp) Ha Hpa.
  assert (Hu : u ∉ perms st).
  { rewrite Hin. intros (b & Hb & Hpb). congruence. }
  assert (Hin' : forall x, x ∈ perms st ++ [u] <-> perm_in_store (<[u := perm_state a]> (store st)) x).
  { intros x. rewrite elem_of_app, list_elem_of_singleton, Hin. unfold perm_in_store.
    destruct (decide (x = u)) as [->|Hne].
    - rewrite lookup_insert_eq. split; [intros _; by eexists | by right].
    - rewrite lookup_insert_ne by congruence. split; [intros [H|H]; done | by left]. }
  destruct (snapshot_steps_perm (DFinalize u (distance a)) (Some u) None
              (finalized st u a) Hsp) as [Hsp' Hp']; cbn.
  { by rewrite Hp. }
  { exact Hin'. }
  split; [exact Hp'|]. split; [exact Hin'|]. split; [|exact Hsp'].
  cbn. apply NoDup_app. split; [done|]. split.
  - intros x Hx Hx'. apply list_elem_of_singleton in Hx' as ->. done.
  - apply NoDup_singleton.
Qed.

Lemma inv10_relaxed (u : string) (e : Edge) (su t : AlgorithmNodeState) (st : RunState) :
  Inv10 st -> store st !! other_end u e = Some t -> status t <> permanent ->
  Inv10 (relaxed u e su t st).
Proof.
  intros Hi Ht Hpt. unfold relaxed. destruct (dist_lt _ _).
  - apply inv10_snapshot; [done|].
    destruct Hi as (Hp & Hin & Hnd & Hsp).
    split; [done|]. split; [|split; done]. cbn. intros x. split.
    + intros Hx. apply Hin in Hx as (b & Hb & Hpb).
      destruct (decide (x = other_end u e)) as [->|Hne].
      * congruence.
      * exists b. by rewrite lookup_insert_ne by congruence.
    + intros (b & Hb & Hpb). apply Hin.
      destruct (decide (x = other_end u e)) as [->|Hne].
      * rewrite lookup_insert_eq in Hb. injection Hb as <-. done.
      * rewrite lookup_insert_ne in Hb by congruence. by exists b.
  - by apply inv10_snapshot.
Qed.

Lemma init_states_no_perm (nodes : list Node) (s x : string) :
  ~ perm_in_store (init_states nodes s) x.
Proof.
  intros (a & Ha & Hp). rewrite init_states_lookup in Ha.
  case_decide; [|discriminate]. injection Ha as <-.
  unfold init_state in Hp. by destruct (String.eqb x s).
Qed.

Lemma inv10_init (nodes : list Node) (s : string) :
  Inv10 (snapshot DInit None None
           {| store := init_states nodes s; perms := []; steps := [] |}).
Proof.
  apply inv10_snapshot; [done|]. split; [done|]. split; [|split].
  - intros x. cbn. split.
    + intros Hx. by apply elem_of_nil in Hx.
    + intros Hx. by apply init_states_no_perm in Hx.
  - constructor.
  - intros i st Hi. cbn in Hi. by rewrite lookup_nil in Hi.
Qed.

(** Everything the run returns satisfies the [permanentNodes] invariant and
    finalizes each node at most once. *)
Lemma run_steps_perm (nodes : list Node) (edges : list Edge) (s e : string)
    (l : list AlgorithmStep) :
  runDoubleLabeling nodes edges s e = Ok l ->
  StepsPerm l /\ NoDup (fin_ids l).
Proof.
  unfold runDoubleLabeling. intros Hr.
  destruct (loop _ _ _ _ _) as [st|] eqn:Hl; cbn in Hr; [|discriminate].
  injection Hr as <-.
  refine (loop_invariant nodes edges e Inv10
           (fun st => StepsPerm (steps st) /\ NoDup (fin_ids (steps st)))
           (fun _ _ st => Inv10 st) _ _ _ _ _ _ (length nodes) _ st _ Hl).
  - intros st0 (Hp & _ & Hnd & Hsp). by rewrite <- Hp.
  - intros st0 Hi. destruct (inv10_snapshot DNoReach None None st0 eq_refl Hi)
      as (Hp & _ & Hnd & Hsp). by rewrite <- Hp.
  - intros st0 d u a Hi Hs Ha. apply inv10_finalize; try done.
    destruct (scan_spec _ _ _ _ _ _ Hs) as [(_ & ? & _) |
      (i & n & a' & _ & Hu & Ha' & Hp' & _)]; [discriminate|].
    injection Hu as Hu. subst u. congruence.
  - intros u su st0 Hi _. destruct (inv10_snapshot (DArrive u) (Some u) None st0 eq_refl Hi)
      as (Hp & _ & Hnd & Hsp). by rewrite <- Hp.
  - intros u su st0 e0 t Hi _ _ _ Ht Hpt. by apply inv10_relaxed.
  - intros u su st0 Hi _. exact Hi.
  - apply inv10_init.
Qed.

(** C10: in every step of a returned trace, [permanentNodes] lists, in the
    order of finalization, the nodes finalized up to and including that
    step; they are exactly the nodes whose status is permanent in the
    step's snapshot, each listed once; and the array of a step is a prefix
    of the array of every later step. *)
Theorem c10_permanent_nodes (nodes : list Node) (edges : list Edge)
    (startNodeId endNodeId : string) (l : list AlgorithmStep) :
  runDoubleLabeling nodes edges startNodeId endNodeId = Ok l ->
  forall i si, l !! i = Some si ->
    permanentNodes si = fin_ids (take (S i) l) /\
    (forall x, x ∈ permanentNodes si <->
       exists a, nodeStates si !! x = Some a /\ s_status a = permanent) /\
    NoDup (permanentNodes si) /\
    (forall j sj, i <= j -> l !! j = Some sj ->
       exists rest, permanentNodes sj = permanentNodes si ++ rest).
Proof.
  intros Hr i si Hi. destruct (run_steps_perm _ _ _ _ _ Hr) as [Hsp Hnd].
  destruct (Hsp i si Hi) as [Hp Hin].
  split; [done|]. split; [done|]. split.
  - rewrite Hp. rewrite <- (take_drop (S i) l), fin_ids_app in Hnd.
    by apply NoDup_app in Hnd as [? _].
  - intros j sj Hij Hj. destruct (Hsp j sj Hj) as [Hpj _].
    exists (fin_ids (drop (S i) (take (S j) l))).
    rewrite Hpj, Hp, <- fin_ids_app. f_equal.
    rewrite <- (take_drop (S i) (take (S j) l)) at 1.
    rewrite take_take. f_equal. f_equal. lia.
Qed.

Lemma c10_permanent_nodes_witness :
  exists l, runDoubleLabeling INITIAL_NODES INITIAL_EDGES "1" "6" = Ok l /\
  forall i si, l !! i = Some si ->
    permanentNodes si = fin_ids (take (S i) l) /\
    (forall x, x ∈ permanentNodes si <->
       exists a, nodeStates si !! x = Some a /\ s_status a = permanent) /\
    NoDup (permanentNodes si) /\
    (forall j sj, i <= j -> l !! j = Some sj ->
       exists rest, permanentNodes sj = permanentNodes si ++ rest).
Proof.
  eexists. split; [vm_compute; reflexivity|].
  apply (c10_permanent_nodes INITIAL_NODES INITIAL_EDGES "1" "6").
  vm_compute. reflexivity.
Defined.

(** ** Monotone statuses and frozen permanent labels *)

(** [m2] is a later snapshot than [m1]: every node keeps its entry, its
    status does not move backward, and a permanent entry is unchanged. *)
Definition snap_le (m1 m2 : gmap string SnapState) : Prop :=
  forall k a, m1 !! k = Some a ->
    exists b, m2 !! k = Some b /\ rank (s_status a) <= rank (s_status b) /\
      (s_status a = permanent -> b = a).

Lemma snap_le_refl (m : gmap string SnapState) : snap_le m m.
Proof. intros k a Ha. exists a. done. Qed.

Lemma snap_le_trans (m1 m2 m3 : gmap string SnapState) :
  snap_le m1 m2 -> snap_le m2 m3 -> snap_le m1 m3.
Proof.
  intros H12 H23 k a Ha.
  destruct (H12 k a Ha) as (b & Hb & Hr1 & Hp1).
  destruct (H23 k b Hb) as (c & Hc & Hr2 & Hp2).
  exists c. split; [done|]. split; [lia|].
  intros Hpa. specialize (Hp1 Hpa). subst b. by apply Hp2.
Qed.

(** Overwriting the entry of [k] with [x] moves the snapshot forward when
    the old entry [a] is not permanent and [x] does not rank lower, or when
    [x] has the same json image as [a]. *)
Lemma snap_le_insert (m : gmap string AlgorithmNodeState) (k : string)
    (a x : AlgorithmNodeState) :
  m !! k = Some a -> rank (status a) <= rank (status x) ->
  (status a = permanent -> json_state x = json_state a) ->
  snap_le (json_clone m) (json_clone (<[k := x]> m)).
Proof.
  intros Ha Hr Hp k' a' Ha'. rewrite lookup_json_clone in Ha'.
  rewrite lookup_json_clone.
  destruct (decide (k' = k)) as [->|Hne].
  - rewrite Ha in Ha'. injection Ha' as <-. rewrite lookup_insert_eq.
    eexists. split; [done|]. cbn. split; [done|]. intros Hpa. by apply Hp.
  - rewrite lookup_insert_ne by congruence. rewrite Ha'. eexists. split; [done|].
    split; [lia|done].
Qed.

Definition Inv7 (st : RunState) : Prop :=
  (forall i j si sj, i < j -> steps st !! i = Some si -> steps st !! j = Some sj ->
     snap_le (nodeStates si) (nodeStates sj)) /\
  (forall i si, steps st !! i = Some si ->
     snap_le (nodeStates si) (json_clone (store st))).

Lemma inv7_snapshot (desc : Desc) (act edg : option string) (st : RunState) :
  Inv7 st -> Inv7 (snapshot desc act edg st).
Proof.
  intros [Hpair Hcur]. unfold snapshot. split; cbn [steps store].
  - intros i j si sj Hij Hi Hj.
    apply lookup_snoc_Some in Hi as [[Hi Hi'] | [-> <-]];
    apply lookup_snoc_Some in Hj as [[Hj Hj'] | [-> <-]]; try lia.
    + eauto.
    + cbn. eauto.
  - intros i si Hi. apply lookup_snoc_Some in Hi as [[Hi Hi'] | [-> <-]].
    + eauto.
    + apply snap_le_refl.
Qed.

Lemma inv7_finalize (st : RunState) (u : string) (a : AlgorithmNodeState) :
  Inv7 st -> store st !! u = Some a ->
  Inv7 (snapshot (DFinalize u (distance a)) (Some u) None (finalized st u a)).
Proof.
  intros Hi Ha. apply inv7_snapshot.
  assert (Hle : snap_le (json_clone (store st)) (json_clone (<[u := perm_state a]> (store st)))).
  { apply (snap_le_insert _ _ a); [done | cbn; destruct (status a); cbn; lia |].
    intros Hp. unfold json_state, perm_state. cbn. by rewrite Hp. }
  destruct Hi as [Hpair Hcur]. split; cbn; [done|].
  intros i si Hsi. eapply snap_le_trans; eauto.
Qed.

Lemma inv7_relaxed (u : string) (e : Edge) (su t : AlgorithmNodeState) (st : RunState) :
  Inv7 st -> store st !! other_end u e = Some t -> status t <> permanent ->
  Inv7 (relaxed u e su t st).
Proof.
  intros Hi Ht Hpt. unfold relaxed. destruct (dist_lt _ _); apply inv7_snapshot; [|done].
  destruct Hi as [Hpair Hcur]. split; cbn; [done|].
  intros i si Hsi. eapply snap_le_trans; [eauto|].
  apply (snap_le_insert _ _ t); [done | | done].
  cbn. destruct (status t); cbn; try lia. done.
Qed.

Lemma run_steps_monotone (nodes : list Node) (edges : list Edge) (s e : string)
    (l : list AlgorithmStep) :
  runDoubleLabeling nodes edges s e = Ok l ->
  forall i j si sj, i < j -> l !! i = Some si -> l !! j = Some sj ->
    snap_le (nodeStates si) (nodeStates sj).
Proof.
  unfold runDoubleLabeling. intros Hr.
  destruct (loop _ _ _ _ _) as [st|] eqn:Hl; cbn in Hr; [|discriminate].
  injection Hr as <-.
  refine (proj1 (loop_invariant nodes edges e Inv7 Inv7 (fun _ _ st => Inv7 st)
            _ _ _ _ _ _ (length nodes) _ st _ Hl)).
  - done.
  - intros st0 Hi. by apply inv7_snapshot.
  - intros st0 d u a Hi _ Ha. by apply inv7_finalize.
  - intros u su st0 Hi _. by apply inv7_snapshot.
  - intros u su st0 e0 t Hi _ _ _ Ht Hpt. by apply inv7_relaxed.
  - done.
  - apply inv7_snapshot. split; cbn.
    + intros i j si sj _ Hi. by rewrite lookup_nil in Hi.
    + intros i si Hi. by rewrite lookup_nil in Hi.
Qed.

(** C7: in a returned trace, for every node and every pair of steps
    [i < j] (in particular consecutive ones), the node's status in step [j]
    is not behind its status in step [i] along unvisited, temporary,
    permanent; and a node permanent in step [i] has the same distance and
    parent in step [j]. *)
Theorem c7_status_monotone_frozen (nodes : list Node) (edges : list Edge)
    (startNodeId endNodeId : string) (l : list AlgorithmStep) :
  runDoubleLabeling nodes edges startNodeId endNodeId = Ok l ->
  forall i j si sj k a, i < j -> l !! i = Some si -> l !! j = Some sj ->
    nodeStates si !! k = Some a ->
    exists b, nodeStates sj !! k = Some b /\
      rank (s_status a) <= rank (s_status b) /\
      (s_status a = permanent ->
         s_status b = permanent /\ s_distance b = s_distance a /\ s_parent b = s_parent a).
Proof.
  intros Hr i j si sj k a Hij Hi Hj Ha.
  destruct (run_steps_monotone _ _ _ _ _ Hr i j si sj Hij Hi Hj k a Ha)
    as (b & Hb & Hrk & Hp).
  exists b. split; [done|]. split; [done|].
  intros Hpa. specialize (Hp Hpa). subst b. done.
Qed.

Lemma c7_status_monotone_frozen_witness :
  exists l, runDoubleLabeling INITIAL_NODES INITIAL_EDGES "1" "6" = Ok l /\
  forall i j si sj k a, i < j -> l !! i = Some si -> l !! j = Some sj ->
    nodeStates si !! k = Some a ->
    exists b, nodeStates sj !! k = Some b /\
      rank (s_status a) <= rank (s_status b) /\
      (s_status a = permanent ->
         s_status b = permanent /\ s_distance b = s_distance a /\ s_parent b = s_parent a).
Proof.
  eexists. split; [vm_compute; reflexivity|].
  apply (c7_status_monotone_frozen INITIAL_NODES INITIAL_EDGES "1" "6").
  vm_compute. reflexivity.
Defined.

(** ** Finalization distances *)

(** The distance shown by a finalization step. *)
Definition fin_dist (s : AlgorithmStep) : option dist :=
  match description s with
  | DFinalize _ d => Some d
  | _ => None
  end.

Definition FinOrdered (l : list AlgorithmStep) : Prop :=
  forall i j si sj du dv, i < j -> l !! i = Some si -> l !! j = Some sj ->
    fin_dist si = Some du -> fin_dist sj = Some dv -> dist_le du dv.

Definition FinBound (l : list AlgorithmStep) (f : dist) : Prop :=
  forall i si du, l !! i = Some si -> fin_dist si = Some du -> dist_le du f.

Definition LowerBound (nodes : list Node) (m : gmap string AlgorithmNodeState)
    (f : dist) : Prop :=
  forall n a, n ∈ nodes -> m !! id n = Some a -> status a <> permanent ->
    dist_le f (distance a).

Lemma fin_ordered_snoc (l : list AlgorithmStep) (s : AlgorithmStep) :
  FinOrdered l -> (forall dv, fin_dist s = Some dv -> FinBound l dv) ->
  FinOrdered (l ++ [s]).
Proof.
  intros Ho Hb i j si sj du dv Hij Hi Hj Hdu Hdv.
  apply lookup_snoc_Some in Hi as [[Hi Hi'] | [-> <-]];
  apply lookup_snoc_Some in Hj as [[Hj Hj'] | [-> <-]]; try lia.
  - eauto.
  - eapply Hb; eauto.
Qed.

Lemma fin_bound_snoc (l : list AlgorithmStep) (s : AlgorithmStep) (f : dist) :
  FinBound l f -> (forall dv, fin_dist s = Some dv -> dist_le dv f) ->
  FinBound (l ++ [s]) f.
Proof.
  intros Hb Hs i si du Hi Hdu.
  apply lookup_snoc_Some in Hi as [[Hi Hi'] | [-> <-]]; eauto.
Qed.

Lemma fin_bound_mono (l : list AlgorithmStep) (f g : dist) :
  FinBound l f -> dist_le f g -> FinBound l g.
Proof. intros Hb Hfg i si du Hi Hdu. eapply dist_le_trans; eauto. Qed.

Definition Inv8 (nodes : list Node) (st : RunState) : Prop :=
  FinOrdered (steps st) /\
  exists f, FinBound (steps st) f /\ LowerBound nodes (store st) f.

Definition Q8 (nodes : list Node) (su : AlgorithmNodeState) (st : RunState) : Prop :=
  FinOrdered (steps st) /\ FinBound (steps st) (distance su) /\
  LowerBound nodes (store st) (distance su).

Lemma dist_le_add (a : dist) (w : Z) : (0 <= w)%Z -> dist_le a (dist_add a w).
Proof. destruct a; cbn; [lia | done]. Qed.

Lemma inv8_snapshot_plain (desc : Desc) (act edg : option string) (st : RunState) :
  fin_desc desc = [] -> FinOrdered (steps st) ->
  FinOrdered (steps (snapshot desc act edg st)).
Proof.
  intros Hd Ho. apply fin_ordered_snoc; [done|]. intros dv Hdv.
  unfold fin_dist in Hdv. cbn in Hdv. destruct desc; cbn in *; congruence.
Qed.

Lemma q8_snapshot_plain (nodes : list Node) (su : AlgorithmNodeState)
    (desc : Desc) (act edg : option string) (st : RunState) :
  fin_desc desc = [] -> Q8 nodes su st -> Q8 nodes su (snapshot desc act edg st).
Proof.
  intros Hd (Ho & Hb & Hl). split; [by apply inv8_snapshot_plain|]. split; [|done].
  apply fin_bound_snoc; [done|]. intros dv Hdv.
  unfold fin_dist in Hdv. cbn in Hdv. destruct desc; cbn in *; congruence.
Qed.

Lemma q8_finalize (nodes : list Node) (st : RunState) (d : Z) (u : string)
    (a : AlgorithmNodeState) :
  Inv8 nodes st -> scan (store st) nodes Inf None = Ok (Fin d, Some u) ->
  store st !! u = Some a ->
  Q8 nodes (perm_state a)
    (snapshot (DFinalize u (distance a)) (Some u) None (finalized st u a)).
Proof.
  intros (Ho & f & Hb & Hl) Hs Ha.
  destruct (scan_spec _ _ _ _ _ _ Hs) as [(_ & ? & _) |
    (i & n & a' & Hi & Hu & Ha' & Hp' & Hd & _ & Hmin & _)]; [discriminate|].
  injection Hu as Hu. subst u. rewrite Ha in Ha'. injection Ha' as <-.
  assert (Hfa : dist_le f (distance a)).
  { eapply Hl; eauto. by eapply list_elem_of_lookup_2. }
  cbn [distance perm_state]. unfold snapshot, finalized. cbn [steps store].
  split; [|split].
  - apply fin_ordered_snoc; [done|]. intros dv Hdv. cbn in Hdv. injection Hdv as <-.
    by eapply fin_bound_mono.
  - apply fin_bound_snoc.
    + by eapply fin_bound_mono.
    + intros dv Hdv. cbn in Hdv. injection Hdv as <-. apply dist_le_refl.
  - intros n' b Hn' Hb' Hpb. cbn [store] in Hb'. try rewrite Hd.
    destruct (decide (id n' = id n)) as [Heq|Hne].
    + rewrite Heq, lookup_insert_eq in Hb'. injection Hb' as <-. apply dist_le_refl.
    + rewrite lookup_insert_ne in Hb' by congruence. unfold perm_state; cbn [distance]. rewrite Hd. eauto.
Qed.

Lemma q8_relaxed (nodes : list Node) (edges : list Edge) (u : string) (e : Edge)
    (su t : AlgorithmNodeState) (st : RunState) :
  (forall e', e' ∈ edges -> (0 <= weight e')%Z) -> e ∈ incident u edges ->
  Q8 nodes su st -> Q8 nodes su (relaxed u e su t st).
Proof.
  intros Hw He HQ. unfold relaxed. destruct (dist_lt _ _).
  - apply q8_snapshot_plain; [done|]. destruct HQ as (Ho & Hb & Hl).
    split; [done|]. split; [done|]. cbn [store].
    intros n a Hn Ha Hpa. destruct (decide (id n = other_end u e)) as [Heq|Hne].
    + rewrite Heq, lookup_insert_eq in Ha. injection Ha as <-. cbn.
      apply dist_le_add. apply Hw.
      unfold incident in He. apply list_elem_of_In, filter_In in He as [He _].
      by apply list_elem_of_In.
    + rewrite lookup_insert_ne in Ha by congruence. eauto.
  - by apply q8_snapshot_plain.
Qed.

Lemma run_fin_ordered (nodes : list Node) (edges : list Edge) (s e : string)
    (l : list AlgorithmStep) :
  (forall e', e' ∈ edges -> (0 <= weight e')%Z) ->
  runDoubleLabeling nodes edges s e = Ok l -> FinOrdered l.
Proof.
  unfold runDoubleLabeling. intros Hw Hr.
  destruct (loop _ _ _ _ _) as [st|] eqn:Hl; cbn in Hr; [|discriminate].
  injection Hr as <-.
  refine (loop_invariant nodes edges e (Inv8 nodes) (fun st => FinOrdered (steps st))
            (fun _ su st => Q8 nodes su st) _ _ _ _ _ _ (length nodes) _ st _ Hl).
  - by intros st0 [Ho _].
  - intros st0 [Ho _]. by apply inv8_snapshot_plain.
  - intros st0 d u a Hi Hs Ha. by eapply q8_finalize.
  - intros u su st0 [Ho _] _. by apply inv8_snapshot_plain.
  - intros u su st0 e0 t HQ _ He _ _ _. by eapply q8_relaxed.
  - intros u su st0 (Ho & Hb & Hl') _. split; [done|]. by exists (distance su).
  - split.
    + apply inv8_snapshot_plain; [done|]. intros i j si sj du dv _ Hi. cbn in Hi. by rewrite lookup_nil in Hi.
    + exists (Fin 0). split.
      * apply fin_bound_snoc.
        -- intros i si du Hi. cbn in Hi. by rewrite lookup_nil in Hi.
        -- intros dv Hdv. discriminate.
      * intros n a _ Ha _. cbn in Ha. rewrite init_states_lookup in Ha.
        case_decide; [|discriminate]. injection Ha as <-.
        unfold init_state. destruct (String.eqb _ _); cbn; [lia | done].
Qed.

(** C8: with non-negative edge weights, a node finalized earlier in a
    returned trace was finalized at a distance no greater than any node
    finalized later. *)
Theorem c8_finalization_nondecreasing (nodes : list Node) (edges : list Edge)
    (startNodeId endNodeId : string) (l : list AlgorithmStep) :
  (forall e, e ∈ edges -> (0 <= weight e)%Z) ->
  runDoubleLabeling nodes edges startNodeId endNodeId = Ok l ->
  forall i j si sj u v du dv, i < j -> l !! i = Some si -> l !! j = Some sj ->
    description si = DFinalize u du -> description sj = DFinalize v dv ->
    dist_le du dv.
Proof.
  intros Hw Hr i j si sj u v du dv Hij Hi Hj Hu Hv.
  apply (run_fin_ordered nodes edges startNodeId endNodeId l Hw Hr i j si sj);
    try done; unfold fin_dist; [rewrite Hu | rewrite Hv]; done.
Qed.

Lemma c8_finalization_nondecreasing_witness :
  (forall e, e ∈ INITIAL_EDGES -> (0 <= weight e)%Z) /\
  exists l, runDoubleLabeling INITIAL_NODES INITIAL_EDGES "1" "6" = Ok l /\
  forall i j si sj u v du dv, i < j -> l !! i = Some si -> l !! j = Some sj ->
    description si = DFinalize u du -> description sj = DFinalize v dv ->
    dist_le du dv.
Proof.
  assert (Hw : forall e, e ∈ INITIAL_EDGES -> (0 <= weight e)%Z).
  { intros e He. repeat (apply elem_of_cons in He as [->|He]; [cbn; lia|]).
    by apply elem_of_nil in He. }
  split; [exact Hw|].
  eexists. split; [vm_compute; reflexivity|].
  apply (c8_finalization_nondecreasing INITIAL_NODES INITIAL_EDGES "1" "6"); [exact Hw|].
  vm_compute. reflexivity.
Defined.

(** ** Early exit at the end node *)

Definition NoEndFin (endNodeId : string) (l : list AlgorithmStep) : Prop :=
  forall k s d, l !! k = Some s -> description s <> DFinalize endNodeId d.

Definition EndsAtArrival (endNodeId : string) (l : list AlgorithmStep) : Prop :=
  forall k s d, l !! k = Some s -> description s = DFinalize endNodeId d ->
    length l = k + 2 /\
    exists s', l !! (k + 1) = Some s' /\ description s' = DArrive endNodeId.

Definition Q6 (endNodeId u : string) (st : RunState) : Prop :=
  (u = endNodeId -> exists l0 s d, steps st = l0 ++ [s] /\ NoEndFin endNodeId l0 /\
     description s = DFinalize endNodeId d) /\
  (u <> endNodeId -> NoEndFin endNodeId (steps st)).

Lemma no_end_fin_snoc (endNodeId : string) (l : list AlgorithmStep) (s : AlgorithmStep) :
  NoEndFin endNodeId l -> (forall d, description s <> DFinalize endNodeId d) ->
  NoEndFin endNodeId (l ++ [s]).
Proof.
  intros Hl Hs k s' d Hk. apply lookup_snoc_Some in Hk as [[_ Hk] | [_ <-]]; eauto.
Qed.

Lemma no_end_fin_relaxed (endNodeId u : string) (e : Edge) (su t : AlgorithmNodeState)
    (st : RunState) :
  NoEndFin endNodeId (steps st) -> NoEndFin endNodeId (steps (relaxed u e su t st)).
Proof.
  intros H. unfold relaxed. destruct (dist_lt _ _); apply no_end_fin_snoc; done.
Qed.

Lemma run_ends_at_arrival (nodes : list Node) (edges : list Edge) (s e : string)
    (l : list AlgorithmStep) :
  runDoubleLabeling nodes edges s e = Ok l -> EndsAtArrival e l.
Proof.
  unfold runDoubleLabeling. intros Hr.
  destruct (loop _ _ _ _ _) as [st|] eqn:Hl; cbn in Hr; [|discriminate].
  injection Hr as <-.
  refine (loop_invariant nodes edges e (fun st => NoEndFin e (steps st))
            (fun st => EndsAtArrival e (steps st))
            (fun u _ st => Q6 e u st) _ _ _ _ _ _ (length nodes) _ st _ Hl).
  - intros st0 H k s0 d Hk Hd. by destruct (H k s0 d Hk).
  - intros st0 H k s0 d Hk Hd. exfalso.
    assert (H' : NoEndFin e (steps (snapshot DNoReach None None st0))).
    { apply no_end_fin_snoc; [done|]. cbn. congruence. }
    by apply (H' k s0 d Hk).
  - intros st0 d u a H _ _. unfold snapshot, finalized. cbn [steps]. split.
    + intros ->. do 3 eexists. split; [done|]. split; [done|]. done.
    + intros Hne. apply no_end_fin_snoc; [done|]. cbn. congruence.
  - intros u su st0 [Hend _] ->. destruct (Hend eq_refl) as (l0 & s0 & d & Hst & Hno & Hd).
    unfold snapshot. cbn [steps]. rewrite Hst.
    intros k s1 d1 Hk Hd1.
    rewrite <- app_assoc in Hk. cbn in Hk.
    destruct (decide (k < length l0)) as [Hlt|Hge].
    + rewrite lookup_app_l in Hk by done. by destruct (Hno k s1 d1 Hk).
    + rewrite lookup_app_r in Hk by lia.
      destruct (k - length l0) as [|[|m]] eqn:Hkm; cbn in Hk; try discriminate.
      * injection Hk as <-. split.
        -- rewrite !length_app. cbn. lia.
        -- rewrite <- app_assoc. cbn. rewrite lookup_app_r by lia.
           replace (k + 1 - length l0) with 1 by lia. cbn.
           eexists. split; reflexivity.
      * injection Hk as <-. discriminate.
  - intros u su st0 e0 t [_ Hne] Hu _ _ _ _. split; [done|].
    intros _. apply no_end_fin_relaxed. by apply Hne.
  - intros u su st0 [_ Hne] Hu. by apply Hne.
  - apply no_end_fin_snoc; [|done]. intros k s0 d Hk. cbn in Hk. by rewrite lookup_nil in Hk.
Qed.

(** C6: if the end node is finalized at step [k] of a returned trace, the
    trace has exactly one further step, the arrival announcement: no step
    after [k] finalizes a node or relaxes an edge. *)
Theorem c6_stop_after_end (nodes : list Node) (edges : list Edge)
    (startNodeId endNodeId : string) (l : list AlgorithmStep) :
  runDoubleLabeling nodes edges startNodeId endNodeId = Ok l ->
  forall k sk d, l !! k = Some sk -> description sk = DFinalize endNodeId d ->
    length l = k + 2 /\
    (forall j sj, k < j -> l !! j = Some sj -> description sj = DArrive endNodeId).
Proof.
  intros Hr k sk d Hk Hd.
  destruct (run_ends_at_arrival _ _ _ _ _ Hr k sk d Hk Hd) as [Hlen (s' & Hs' & Harr)].
  split; [done|]. intros j sj Hkj Hj.
  assert (j = k + 1) as -> by (apply lookup_lt_Some in Hj; lia).
  congruence.
Qed.

Lemma c6_stop_after_end_witness :
  exists l, runDoubleLabeling INITIAL_NODES INITIAL_EDGES "1" "6" = Ok l /\
  forall k sk d, l !! k = Some sk -> description sk = DFinalize "6" d ->
    length l = k + 2 /\
    (forall j sj, k < j -> l !! j = Some sj -> description sj = DArrive "6").
Proof.
  eexists. split; [vm_compute; reflexivity|].
  apply (c6_stop_after_end INITIAL_NODES INITIAL_EDGES "1" "6").
  vm_compute. reflexivity.
Defined.

(** ** Termination without exception on well-formed graphs *)

Definition Keys (nodes : list Node) (m : gmap string AlgorithmNodeState) : Prop :=
  forall k, is_Some (m !! k) <-> k ∈ map id nodes.

(** Both endpoints of every edge are ids of the node list. *)
Definition EdgesWellFormed (nodes : list Node) (edges : list Edge) : Prop :=
  forall e, e ∈ edges -> source e ∈ map id nodes /\ target e ∈ map id nodes.

Lemma scan_ok (m : gmap string AlgorithmNodeState) (nodes : list Node)
    (d : dist) (u : option string) :
  (forall n, n ∈ nodes -> is_Some (m !! id n)) ->
  exists p, scan m nodes d u = Ok p.
Proof.
  revert d u. induction nodes as [|n ns IH]; intros d u Hk; cbn; [eauto|].
  destruct (Hk n) as [a Ha]; [by apply elem_of_cons; left|].
  unfold get. rewrite Ha. cbn -[bool_decide].
  assert (Hk' : forall n', n' ∈ ns -> is_Some (m !! id n')).
  { intros n' Hn'. apply Hk. by apply elem_of_cons; right. }
  destruct (_ && _); apply IH; done.
Qed.

Lemma keys_insert (nodes : list Node) (m : gmap string AlgorithmNodeState)
    (k : string) (x : AlgorithmNodeState) :
  Keys nodes m -> is_Some (m !! k) -> Keys nodes (<[k := x]> m).
Proof.
  intros Hk Hs k'. destruct (decide (k' = k)) as [->|Hne].
  - rewrite lookup_insert_eq. split; [intros _; by apply Hk | intros _; by eexists].
  - rewrite lookup_insert_ne by congruence. apply Hk.
Qed.

Lemma keys_init (nodes : list Node) (s : string) : Keys nodes (init_states nodes s).
Proof.
  intros k. rewrite init_states_lookup. case_decide; split; try done.
Qed.

Lemma fin_len_snapshot (desc : Desc) (act edg : option string) (st : RunState) :
  length (fin_ids (steps (snapshot desc act edg st))) =
  length (fin_ids (steps st)) + length (fin_desc desc).
Proof. unfold snapshot. cbn [steps]. by rewrite fin_ids_snoc, length_app. Qed.

Lemma loop_ok (nodes : list Node) (edges : list Edge) (endNodeId : string)
    (cnt : nat) (st : RunState) :
  EdgesWellFormed nodes edges -> Keys nodes (store st) ->
  exists st', loop cnt nodes edges endNodeId st = Ok st' /\
    length (fin_ids (steps st')) <= length (fin_ids (steps st)) + cnt.
Proof.
  intros Hwf. revert st. induction cnt as [|cnt IH]; intros st Hk.
  - exists st. split; [done | lia].
  - cbn [loop].
    destruct (scan_ok (store st) nodes Inf None) as [p Hp].
    { intros n Hn. apply Hk. apply list_elem_of_In, in_map. by apply list_elem_of_In. }
    rewrite Hp. cbn -[snapshot].
    destruct p as [[d|] [u|]];
      try (eexists; split; [reflexivity|]; rewrite fin_len_snapshot; cbn; lia).
    destruct (scan_spec _ _ _ _ _ _ Hp) as [(_ & ? & _) |
      (i & n & a & Hi & Hu & Ha & Hpa & Hd & _)]; [discriminate|].
    injection Hu as Hu. subst u.
    unfold finalize, get. rewrite Ha. cbn -[snapshot perm_state]. rewrite lookup_insert_eq. cbn -[snapshot perm_state]. fold (finalized st (id n) a).
    set (st2 := snapshot (DFinalize (id n) (distance a)) (Some (id n)) None
                  (finalized st (id n) a)).
    assert (Hfin2 : length (fin_ids (steps st2)) = length (fin_ids (steps st)) + 1).
    { subst st2. rewrite fin_len_snapshot. done. }
    destruct (String.eqb (id n) endNodeId).
    + eexists. split; [reflexivity|]. rewrite !fin_len_snapshot. cbn [steps fin_desc length]. lia.
    + assert (Hk2 : Keys nodes (store st2)).
      { apply keys_insert; [done|]. by eexists. }
      assert (Hu2 : store st2 !! id n = Some (perm_state a)) by apply lookup_insert_eq.
      destruct (relax_all_spec (id n) (perm_state a) (incident (id n) edges) st2 Hu2 eq_refl)
        as (st3 & new & Hr3 & _).
      { intros e He. apply Hk2. unfold other_end.
        unfold incident in He. apply list_elem_of_In, filter_In in He as [He _].
        apply list_elem_of_In, Hwf in He as [Hs Ht].
        by destruct (String.eqb _ _). }
      assert (Hinv3 : Keys nodes (store st3) /\ fin_ids (steps st3) = fin_ids (steps st2)).
      { apply (relax_all_preserves (id n) (perm_state a)
                 (fun s => Keys nodes (store s) /\ fin_ids (steps s) = fin_ids (steps st2))
                 (incident (id n) edges) st2 st3); try done.
        intros s0 e t [Hk0 Hf0] _ Hu0 Ht Hpt.
        destruct (relaxed_facts (id n) e (perm_state a) t s0 Hu0 eq_refl Ht Hpt)
          as (_ & Hdom & _ & _ & s1 & Hst & _ & _ & _ & _ & Hfd & _).
        split.
        - intros k. split; intros H; [apply Hk0, Hdom, H | apply Hdom, Hk0, H].
        - rewrite Hst, fin_ids_snoc, Hfd, app_nil_r. done. }
      destruct Hinv3 as [Hk3 Hf3].
      destruct (IH st3 Hk3) as (st' & Hl' & Hlen).
      assert (Hr3' : relax_all (id n) (incident (id n) edges)
        (snapshot (DFinalize (id n) (distance a)) (Some (id n)) None
           {| store := <[id n := {| distance := distance a; parent := parent a;
                                    status := permanent |}]> (store st);
              perms := perms st ++ [id n]; steps := steps st |}) = Ok st3)
        by exact Hr3.
      exists st'. rewrite Hr3'. cbn. split; [done|].
      rewrite Hf3, Hfin2 in Hlen. lia.
Qed.

(** C9: on a graph whose edges all join ids of the node list, the run
    returns a trace without throwing; the loop finalizes each node at most
    once, and at most as many nodes as the node list holds (the loop runs
    at most [nodes.length] iterations, since every iteration that does not
    exit finalizes one node and decrements [unvisitedCount]). *)
Theorem c9_terminates_bounded (nodes : list Node) (edges : list Edge)
    (startNodeId endNodeId : string) :
  EdgesWellFormed nodes edges ->
  exists l, runDoubleLabeling nodes edges startNodeId endNodeId = Ok l /\
    length (fin_ids l) <= length nodes /\ NoDup (fin_ids l).
Proof.
  intros Hwf.
  destruct (loop_ok nodes edges endNodeId (length nodes)
              (snapshot DInit None None
                 {| store := init_states nodes startNodeId; perms := []; steps := [] |})
              Hwf (keys_init nodes startNodeId)) as (st & Hl & Hlen).
  assert (Hr : runDoubleLabeling nodes edges startNodeId endNodeId = Ok (steps st)).
  { unfold runDoubleLabeling. rewrite Hl. done. }
  exists (steps st). split; [done|]. split.
  - rewrite Hlen. done.
  - by destruct (run_steps_perm _ _ _ _ _ Hr).
Qed.

Lemma c9_terminates_bounded_witness :
  EdgesWellFormed INITIAL_NODES INITIAL_EDGES /\
  exists l, runDoubleLabeling INITIAL_NODES INITIAL_EDGES "1" "6" = Ok l /\
    length (fin_ids l) <= length INITIAL_NODES /\ NoDup (fin_ids l).
Proof.
  assert (Hwf : EdgesWellFormed INITIAL_NODES INITIAL_EDGES).
  { intros e He.
    repeat (apply elem_of_cons in He as [->|He];
            [split; apply list_elem_of_In; cbn; tauto|]).
    by apply elem_of_nil in He. }
  split; [exact Hwf|].
  apply (c9_terminates_bounded INITIAL_NODES INITIAL_EDGES "1" "6"). exact Hwf.
Defined.

(** ** No validation before the run *)

Lemma scan_all_inf (m : gmap string AlgorithmNodeState) (nodes : list Node) :
  (forall n, n ∈ nodes -> exists a, m !! id n = Some a /\ distance a = Inf) ->
  scan m nodes Inf None = Ok (Inf, None).
Proof.
  intros Hall.
  destruct (scan_ok m nodes Inf None) as [[d u] Hs].
  { intros n Hn. destruct (Hall n Hn) as (a & Ha & _). by eexists. }
  rewrite Hs. destruct (scan_spec _ _ _ _ _ _ Hs) as [(-> & -> & _) |
    (i & n & a & Hi & Hu & Ha & Hp & Hd & Hlt & _)]; [done|].
  destruct (Hall n) as (b & Hb & Hbd); [by eapply list_elem_of_lookup_2|].
  rewrite Ha in Hb. injection Hb as ->. rewrite Hbd in Hd. subst d. discriminate.
Qed.

Lemma relax_edge_dangling (u : string) (st : RunState) (e : Edge) :
  store st !! other_end u e = None -> relax_edge u st e = TypeError.
Proof. intros H. unfold relax_edge, get. by rewrite H. Qed.

(** C1 (as amended): the engine validates nothing and has no GraphInvalid
    outcome.  With an empty node list it returns the initialization step
    alone; with a start id that is no node id it returns the initialization
    step and the "no further reachable nodes" step; a negative weight is
    relaxed like any other; an edge whose other end is no node id makes the
    engine throw a TypeError (no trace) when it is examined from a
    finalized node. *)
Theorem c1_no_validation :
  (forall edges startNodeId endNodeId,
     runDoubleLabeling [] edges startNodeId endNodeId = Ok [init_step [] startNodeId]) /\
  (forall nodes edges startNodeId endNodeId,
     startNodeId ∉ map id nodes -> nodes <> [] ->
     runDoubleLabeling nodes edges startNodeId endNodeId =
       Ok [init_step nodes startNodeId; noreach_step nodes startNodeId]) /\
  final_entry (runDoubleLabeling DISCONNECTED_NODES NEG_EDGES "1" "2") "2" =
    Some {| s_distance := JNum (-3); s_parent := Some "1"; s_status := permanent |} /\
  (forall u st e, store st !! other_end u e = None -> relax_edge u st e = TypeError) /\
  runDoubleLabeling [mkNode "1" "v1"] DANGLING_EDGES "1" "2" = TypeError.
Proof.
  split; [reflexivity|]. split; [|split; [vm_compute; reflexivity|]].
  - intros nodes edges s e Hs Hne. unfold runDoubleLabeling.
    destruct nodes as [|n ns]; [done|]. cbn [length loop].
    rewrite scan_all_inf.
    + done.
    + intros n' Hn'. cbn [store snapshot]. exists (init_state (id n') s). split.
      * rewrite init_states_lookup. rewrite decide_True; [done|].
        apply list_elem_of_In, in_map. by apply list_elem_of_In.
      * unfold init_state. destruct (String.eqb (id n') s) eqn:Heq; [|done].
        apply String.eqb_eq in Heq. exfalso. apply Hs. rewrite <- Heq.
        apply list_elem_of_In, in_map. by apply list_elem_of_In.
  - split; [apply relax_edge_dangling | vm_compute; reflexivity].
Qed.

(** * Invariants of every returned trace *)

(** ** Generic invariants of returned traces *)

Lemma relaxed_as_snapshot (u : string) (e : Edge) (su t : AlgorithmNodeState)
    (st : RunState) :
  exists desc st0,
    relaxed u e su t st = snapshot desc (Some u) (Some (edge_id e)) st0 /\
    steps st0 = steps st /\ perms st0 = perms st /\
    ((desc = DUpdate (other_end u e) (distance t) (dist_add (distance su) (weight e)) u /\
      dist_lt (dist_add (distance su) (weight e)) (distance t) = true /\
      store st0 = <[other_end u e := {| distance := dist_add (distance su) (weight e);
                                       parent := Some u; status := temporary |}]>
                    (store st)) \/
     (desc = DNoImprove (other_end u e) (distance t) (dist_add (distance su) (weight e)) /\
      dist_lt (dist_add (distance su) (weight e)) (distance t) = false /\
      store st0 = store st)).
Proof.
  unfold relaxed. destruct (dist_lt _ _) eqn:Hlt.
  - eexists _, _. split; [reflexivity|]. cbn. split; [done|]. split; [done|].
    left. done.
  - eexists _, st. split; [reflexivity|]. split; [done|]. split; [done|].
    right. done.
Qed.

(** A property of step lists kept by appending any step holds of every
    returned trace once it holds of the initialization step alone. *)
Lemma run_steps_extend (P : list AlgorithmStep -> Prop) (nodes : list Node)
    (edges : list Edge) (s e : string) (l : list AlgorithmStep) :
  (forall l0 x, P l0 -> stepIndex x = length l0 -> P (l0 ++ [x])) ->
  P [init_step nodes s] ->
  runDoubleLabeling nodes edges s e = Ok l -> P l.
Proof.
  intros Hext Hinit. unfold runDoubleLabeling. intros Hr.
  destruct (loop _ _ _ _ _) as [st|] eqn:Hl; cbn in Hr; [|discriminate].
  injection Hr as <-.
  assert (Hsnap : forall desc act edg st0, P (steps st0) ->
            P (steps (snapshot desc act edg st0))).
  { intros. unfold snapshot. cbn [steps]. by apply Hext. }
  refine (loop_invariant nodes edges e (fun st => P (steps st)) (fun st => P (steps st))
            (fun _ _ st => P (steps st)) _ _ _ _ _ _ (length nodes) _ st _ Hl).
  - done.
  - intros. by apply Hsnap.
  - intros st0 d u a H _ _. by apply Hsnap.
  - intros. by apply Hsnap.
  - intros u su st0 e0 t H _ _ _ _ _.
    destruct (relaxed_as_snapshot u e0 su t st0) as (desc & st1 & -> & Hs & _).
    apply Hsnap. by rewrite Hs.
  - done.
  - exact Hinit.
Qed.

(** A property [S] of the working map kept by finalization and by an
    improving relaxation holds of every map, so every stored snapshot
    satisfies what [S] implies of its JSON image. *)
Lemma run_store_invariant (S : gmap string AlgorithmNodeState -> Prop)
    (Pn : gmap string SnapState -> Prop) (nodes : list Node) (edges : list Edge)
    (s e : string) (l : list AlgorithmStep) :
  S (init_states nodes s) ->
  (forall m d u a, S m -> scan m nodes Inf None = Ok (Fin d, Some u) ->
     m !! u = Some a -> S (<[u := perm_state a]> m)) ->
  (forall m u e0 su t, S m -> e0 ∈ incident u edges -> m !! u = Some su ->
     status su = permanent -> m !! other_end u e0 = Some t -> status t <> permanent ->
     dist_lt (dist_add (distance su) (weight e0)) (distance t) = true ->
     S (<[other_end u e0 := {| distance := dist_add (distance su) (weight e0);
                               parent := Some u; status := temporary |}]> m)) ->
  (forall m, S m -> Pn (json_clone m)) ->
  runDoubleLabeling nodes edges s e = Ok l ->
  forall i x, l !! i = Some x -> Pn (nodeStates x).
Proof.
  intros Hinit Hfin Hrel Hpn. unfold runDoubleLabeling. intros Hr.
  destruct (loop _ _ _ _ _) as [st|] eqn:Hl; cbn in Hr; [|discriminate].
  injection Hr as <-.
  set (I := fun st : RunState => S (store st) /\
              forall i x, steps st !! i = Some x -> Pn (nodeStates x)).
  assert (Hsnap : forall desc act edg st0, I st0 -> I (snapshot desc act edg st0)).
  { intros desc act edg st0 [HS Hst]. split; [done|].
    intros i x Hx. unfold snapshot in Hx. cbn [steps] in Hx.
    apply lookup_snoc_Some in Hx as [[_ Hx] | [_ <-]]; [eauto|]. cbn. by apply Hpn. }
  refine (proj2 (loop_invariant nodes edges e I I
            (fun u su st => I st /\ status su = permanent) _ _ _ _ _ _
            (length nodes) _ st _ Hl)).
  - done.
  - intros. by apply Hsnap.
  - intros st0 d u a [HS Hst] Hs Ha. split; [|done].
    apply Hsnap. split; [cbn; eauto | done].
  - intros u su st0 [H _] _. by apply Hsnap.
  - intros u su st0 e0 t [[HS Hst] Hsu] _ He Hu Ht Hpt. split; [|done].
    destruct (relaxed_as_snapshot u e0 su t st0) as
      (desc & st1 & -> & Hs & _ & [(_ & Hlt & Hst1) | (_ & _ & Hst1)]);
      apply Hsnap; (split; [rewrite Hst1 | rewrite Hs; done]); eauto.
  - by intros u su st0 [H _].
  - apply Hsnap. split; [done|]. intros i x Hx. cbn in Hx. by rewrite lookup_nil in Hx.
Qed.

(** ** Step indices and the first step *)

(** Every step of a returned trace records its own position in the trace:
    [stepIndex] is [steps.length] at the time of the snapshot. *)
Theorem x_step_index (nodes : list Node) (edges : list Edge)
    (startNodeId endNodeId : string) (l : list AlgorithmStep) :
  runDoubleLabeling nodes edges startNodeId endNodeId = Ok l ->
  forall i x, l !! i = Some x -> stepIndex x = i.
Proof.
  apply (run_steps_extend (fun l => forall i x, l !! i = Some x -> stepIndex x = i)).
  - intros l0 y H Hy i x Hx. apply lookup_snoc_Some in Hx as [[_ Hx] | [-> <-]]; eauto.
  - intros [|i] x Hx; cbn in Hx; [by injection Hx as <- | by destruct i].
Qed.

(** The first step of every returned trace is the initialization: no active
    node, no edge, no permanent node, the start labelled 0 with itself as
    parent and marked temporary, every other node unlabelled and unvisited. *)
Theorem x_first_step (nodes : list Node) (edges : list Edge)
    (startNodeId endNodeId : string) (l : list AlgorithmStep) :
  runDoubleLabeling nodes edges startNodeId endNodeId = Ok l ->
  exists x, l !! 0 = Some x /\ description x = DInit /\ activeNodeId x = None /\
    checkingEdgeId x = None /\ permanentNodes x = [] /\
    forall k, nodeStates x !! k =
      if decide (k ∈ map id nodes) then
        Some (if String.eqb k startNodeId
              then {| s_distance := JNum 0; s_parent := Some startNodeId;
                      s_status := temporary |}
              else {| s_distance := JNull; s_parent := None; s_status := unvisited |})
      else None.
Proof.
  intros Hr.
  assert (H0 : l !! 0 = Some (init_step nodes startNodeId)).
  { revert Hr. apply (run_steps_extend (fun l => l !! 0 = Some (init_step nodes startNodeId))).
    - intros l0 x H _. by apply lookup_app_l_Some.
    - done. }
  eexists. split; [exact H0|]. cbn.
  split; [done|]. split; [done|]. split; [done|]. split; [done|].
  intros k. rewrite lookup_json_clone, init_states_lookup.
  case_decide; [|done]. cbn. unfold init_state. by destruct (String.eqb k startNodeId).
Qed.

(** ** Keys of the snapshots *)

(** Every snapshot of a returned trace has an entry for exactly the node ids. *)
Theorem x_snapshot_keys (nodes : list Node) (edges : list Edge)
    (startNodeId endNodeId : string) (l : list AlgorithmStep) :
  runDoubleLabeling nodes edges startNodeId endNodeId = Ok l ->
  forall i x k, l !! i = Some x -> (is_Some (nodeStates x !! k) <-> k ∈ map id nodes).
Proof.
  intros Hr i x k Hx. revert k.
  refine (run_store_invariant (Keys nodes)
            (fun n => forall k, is_Some (n !! k) <-> k ∈ map id nodes)
            nodes edges startNodeId endNodeId l _ _ _ _ Hr i x Hx).
  - apply keys_init.
  - intros m d u a Hk _ Ha. apply keys_insert; [done | by eexists].
  - intros m u e0 su t Hk _ _ _ Ht _ _. apply keys_insert; [done | by eexists].
  - intros m Hk k. rewrite lookup_json_clone, fmap_is_Some. apply Hk.
Qed.

(** ** Consistency of the labels *)

Lemma map_forall_insert (P : string -> AlgorithmNodeState -> Prop)
    (m : gmap string AlgorithmNodeState) (k : string) (x : AlgorithmNodeState) :
  (forall k a, m !! k = Some a -> P k a) -> P k x ->
  forall k' a, <[k := x]> m !! k' = Some a -> P k' a.
Proof.
  intros Hm Hx k' a Ha. destruct (decide (k' = k)) as [->|Hne].
  - rewrite lookup_insert_eq in Ha. by injection Ha as <-.
  - rewrite lookup_insert_ne in Ha by congruence. eauto.
Qed.

Lemma scan_fin (m : gmap string AlgorithmNodeState) (nodes : list Node)
    (d : Z) (u : string) :
  scan m nodes Inf None = Ok (Fin d, Some u) ->
  exists a, m !! u = Some a /\ status a <> permanent /\ distance a = Fin d /\
    u ∈ map id nodes /\
    (forall n b, n ∈ nodes -> m !! id n = Some b -> status b <> permanent ->
       dist_le (Fin d) (distance b)).
Proof.
  intros Hs. destruct (scan_spec _ _ _ _ _ _ Hs) as [(_ & ? & _) |
    (i & n & a & Hi & Hu & Ha & Hp & Hd & _ & Hmin & _)]; [discriminate|].
  injection Hu as Hu. subst u. exists a. split; [done|]. split; [done|].
  split; [done|]. split; [|done].
  apply list_elem_of_In, in_map. apply list_elem_of_In. by eapply list_elem_of_lookup_2.
Qed.

Definition LabelOk (m : gmap string AlgorithmNodeState) : Prop :=
  forall k a, m !! k = Some a ->
    (distance a = Inf <-> parent a = None) /\ (status a = unvisited <-> distance a = Inf).

Lemma label_ok_insert (m : gmap string AlgorithmNodeState) (k : string)
    (x : AlgorithmNodeState) :
  LabelOk m -> (distance x = Inf <-> parent x = None) ->
  (status x = unvisited <-> distance x = Inf) -> LabelOk (<[k := x]> m).
Proof.
  intros Hm H1 H2 k' a Ha. destruct (decide (k' = k)) as [->|Hne].
  - rewrite lookup_insert_eq in Ha. by injection Ha as <-.
  - rewrite lookup_insert_ne in Ha by congruence. eauto.
Qed.

Lemma json_dist_null (d : dist) : json_dist d = JNull <-> d = Inf.
Proof. destruct d; cbn; split; congruence. Qed.

Lemma label_ok_init (nodes : list Node) (s : string) : LabelOk (init_states nodes s).
Proof.
  intros k a Ha. rewrite init_states_lookup in Ha. case_decide; [|discriminate].
  injection Ha as <-. unfold init_state. destruct (String.eqb k s); cbn;
    split; split; congruence.
Qed.

Lemma label_ok_finalize (nodes : list Node) (m : gmap string AlgorithmNodeState)
    (d : Z) (u : string) (a : AlgorithmNodeState) :
  LabelOk m -> scan m nodes Inf None = Ok (Fin d, Some u) -> m !! u = Some a ->
  LabelOk (<[u := perm_state a]> m).
Proof.
  intros Hl Hs Ha. destruct (scan_fin _ _ _ _ Hs) as (a' & Ha' & _ & Hd & _).
  rewrite Ha in Ha'. injection Ha' as <-.
  destruct (Hl u a Ha) as [H1 H2].
  apply label_ok_insert; [done | cbn; exact H1 | cbn; rewrite Hd; split; congruence].
Qed.

Lemma label_ok_relax (m : gmap string AlgorithmNodeState) (v u : string)
    (cand old : dist) :
  LabelOk m -> dist_lt cand old = true ->
  LabelOk (<[v := {| distance := cand; parent := Some u; status := temporary |}]> m).
Proof.
  intros Hl Hlt. assert (cand <> Inf) by (intros ->; discriminate).
  apply label_ok_insert; [done | |]; cbn; split; congruence.
Qed.

(** In every snapshot a label has no distance exactly when it has no parent,
    and exactly when the node is unvisited. *)
Theorem x_label_consistency (nodes : list Node) (edges : list Edge)
    (startNodeId endNodeId : string) (l : list AlgorithmStep) :
  runDoubleLabeling nodes edges startNodeId endNodeId = Ok l ->
  forall i x k a, l !! i = Some x -> nodeStates x !! k = Some a ->
    (s_distance a = JNull <-> s_parent a = None) /\
    (s_status a = unvisited <-> s_distance a = JNull).
Proof.
  intros Hr i x k a Hx. revert k a.
  refine (run_store_invariant LabelOk
            (fun n => forall k a, n !! k = Some a ->
               (s_distance a = JNull <-> s_parent a = None) /\
               (s_status a = unvisited <-> s_distance a = JNull))
            nodes edges startNodeId endNodeId l _ _ _ _ Hr i x Hx).
  - apply label_ok_init.
  - intros m d u a Hl Hs Ha. by eapply label_ok_finalize.
  - intros m u e0 su t Hl _ _ _ _ _ Hlt. by eapply label_ok_relax.
  - intros m Hl k a Ha. rewrite lookup_json_clone in Ha.
    destruct (m !! k) as [b|] eqn:Hb; [|discriminate]. injection Ha as <-.
    cbn. rewrite json_dist_null. apply (Hl k b Hb).
Qed.

(** ** The active node and the edge being checked *)

Definition ActiveOk (x : AlgorithmStep) : Prop :=
  (forall u, activeNodeId x = Some u -> last (permanentNodes x) = Some u) /\
  (activeNodeId x = None -> description x = DInit \/ description x = DNoReach).

Lemma steps_snapshot_forall (P : AlgorithmStep -> Prop) (desc : Desc)
    (act edg : option string) (st : RunState) :
  (forall i x, steps st !! i = Some x -> P x) ->
  P {| stepIndex := length (steps st); description := desc; activeNodeId := act;
       checkingEdgeId := edg; nodeStates := json_clone (store st);
       permanentNodes := perms st |} ->
  forall i x, steps (snapshot desc act edg st) !! i = Some x -> P x.
Proof.
  intros Hall Hnew i x Hx. unfold snapshot in Hx. cbn [steps] in Hx.
  apply lookup_snoc_Some in Hx as [[_ Hx] | [_ <-]]; eauto.
Qed.

(** The active node of a step is the last node made permanent; a step
    without an active node is the initialization or the no-reachable step. *)
Theorem x_active_node (nodes : list Node) (edges : list Edge)
    (startNodeId endNodeId : string) (l : list AlgorithmStep) :
  runDoubleLabeling nodes edges startNodeId endNodeId = Ok l ->
  forall i x, l !! i = Some x ->
    (forall u, activeNodeId x = Some u -> last (permanentNodes x) = Some u) /\
    (activeNodeId x = None -> description x = DInit \/ description x = DNoReach).
Proof.
  unfold runDoubleLabeling. intros Hr.
  destruct (loop _ _ _ _ _) as [st|] eqn:Hl; cbn in Hr; [|discriminate].
  injection Hr as <-.
  set (I := fun st : RunState => forall i x, steps st !! i = Some x -> ActiveOk x).
  refine (loop_invariant nodes edges endNodeId I I
            (fun u _ st => I st /\ last (perms st) = Some u) _ _ _ _ _ _
            (length nodes) _ st _ Hl).
  - done.
  - intros st0 H. unfold I in *. apply steps_snapshot_forall; [done|].
    split; cbn; [done | by right].
  - intros st0 d u a H _ _. unfold I in *. split.
    + apply steps_snapshot_forall; [done|]. split; cbn; [|done].
      intros u' [= <-]. apply last_snoc.
    + cbn. apply last_snoc.
  - intros u su st0 [H Hlast] _. unfold I in *. apply steps_snapshot_forall; [done|].
    split; cbn; [|done]. by intros u' [= <-].
  - intros u su st0 e0 t [H Hlast] _ _ _ _ _. unfold I in *.
    destruct (relaxed_as_snapshot u e0 su t st0) as (desc & st1 & -> & Hs & Hp & _).
    split.
    + apply steps_snapshot_forall; [by rewrite Hs|]. split; cbn; [|done].
      intros u' [= <-]. by rewrite Hp.
    + cbn. by rewrite Hp.
  - by intros u su st0 [H _].
  - unfold I. apply steps_snapshot_forall; [|split; cbn; [done | by left]].
    intros i x Hx. cbn in Hx. by rewrite lookup_nil in Hx.
Qed.

Lemma incident_spec (u : string) (edges : list Edge) (e : Edge) :
  e ∈ incident u edges <-> e ∈ edges /\ (source e = u \/ target e = u).
Proof.
  unfold incident. rewrite list_elem_of_In, filter_In, <- list_elem_of_In.
  rewrite orb_true_iff, !String.eqb_eq. done.
Qed.

Definition CheckOk (edges : list Edge) (x : AlgorithmStep) : Prop :=
  forall eid, checkingEdgeId x = Some eid ->
    exists u e, activeNodeId x = Some u /\ e ∈ edges /\ edge_id e = eid /\
      (source e = u \/ target e = u) /\ other_end u e <> u /\
      ((exists d1 d2, description x = DUpdate (other_end u e) d1 d2 u) \/
       (exists d1 d2, description x = DNoImprove (other_end u e) d1 d2)).

(** A step that names an edge names an edge of the graph incident to the
    active node, which is not a loop, and describes an update or a
    non-improvement of its other end. *)
Theorem x_checking_edge (nodes : list Node) (edges : list Edge)
    (startNodeId endNodeId : string) (l : list AlgorithmStep) :
  runDoubleLabeling nodes edges startNodeId endNodeId = Ok l ->
  forall i x eid, l !! i = Some x -> checkingEdgeId x = Some eid ->
    exists u e, activeNodeId x = Some u /\ e ∈ edges /\ edge_id e = eid /\
      (source e = u \/ target e = u) /\ other_end u e <> u /\
      ((exists d1 d2, description x = DUpdate (other_end u e) d1 d2 u) \/
       (exists d1 d2, description x = DNoImprove (other_end u e) d1 d2)).
Proof.
  unfold runDoubleLabeling. intros Hr.
  destruct (loop _ _ _ _ _) as [st|] eqn:Hl; cbn in Hr; [|discriminate].
  injection Hr as <-. intros i x eid Hx.
  revert eid. change (CheckOk edges x). revert i x Hx.
  set (I := fun st : RunState => forall i x, steps st !! i = Some x -> CheckOk edges x).
  refine (loop_invariant nodes edges endNodeId I I
            (fun u su st => I st /\ status su = permanent) _ _ _ _ _ _
            (length nodes) _ st _ Hl).
  - done.
  - intros st0 H. unfold I in *. apply steps_snapshot_forall; [done|]. by intros eid.
  - intros st0 d u a H _ _. unfold I in *. split; [|done].
    apply steps_snapshot_forall; [done|]. by intros eid.
  - intros u su st0 [H _] _. unfold I in *. apply steps_snapshot_forall; [done|]. by intros eid.
  - intros u su st0 e0 t [H Hsu] _ He Hu Ht Hpt. unfold I in *. split; [|done].
    destruct (relaxed_as_snapshot u e0 su t st0) as
      (desc & st1 & -> & Hs & _ & Hcase).
    apply steps_snapshot_forall; [by rewrite Hs|].
    intros eid [= <-]. apply incident_spec in He as [He Hends].
    exists u, e0. cbn. split; [done|]. split; [done|]. split; [done|].
    split; [done|]. split.
    + intros Heq. rewrite Heq, Hu in Ht. injection Ht as <-. done.
    + destruct Hcase as [(-> & _) | (-> & _)]; [left | right]; eauto.
  - by intros u su st0 [H _].
  - unfold I. apply steps_snapshot_forall; [|by intros eid].
    intros i x Hx. cbn in Hx. by rewrite lookup_nil in Hx.
Qed.

(** ** Parent pointers *)

(** [e] joins [x] and [y], in either direction: the engine reads every
    edge as undirected. *)
Definition joins (e : Edge) (x y : string) : Prop :=
  (source e = x /\ target e = y) \/ (source e = y /\ target e = x).

(** In the snapshot [m], following parents from the permanent node [k]
    leads to the start through permanent nodes, along edges of the graph,
    and [z] is the total weight of the edges crossed. *)
Inductive parent_path (edges : list Edge) (start : string) (m : gmap string SnapState)
  : string -> Z -> Prop :=
| pp_root a :
    m !! start = Some a -> s_status a = permanent -> s_parent a = Some start ->
    s_distance a = JNum 0 -> parent_path edges start m start 0
| pp_edge k p e z a :
    m !! k = Some a -> s_status a = permanent -> s_parent a = Some p -> p <> k ->
    e ∈ edges -> joins e p k -> parent_path edges start m p z ->
    s_distance a = JNum (z + weight e) -> parent_path edges start m k (z + weight e).

Definition ParentOk (edges : list Edge) (start : string)
    (m : gmap string AlgorithmNodeState) : Prop :=
  forall k a p, m !! k = Some a -> parent a = Some p ->
    (p = k /\ k = start /\ distance a = Fin 0) \/
    (p <> k /\ exists e ap, e ∈ edges /\ joins e p k /\ m !! p = Some ap /\
       status ap = permanent /\ distance a = dist_add (distance ap) (weight e)).

Definition PathOk (edges : list Edge) (start : string)
    (m : gmap string AlgorithmNodeState) : Prop :=
  forall k a, m !! k = Some a -> status a = permanent ->
    exists z, parent_path edges start (json_clone m) k z.

Lemma json_clone_insert (m : gmap string AlgorithmNodeState) (k : string)
    (x : AlgorithmNodeState) :
  json_clone (<[k := x]> m) = <[k := json_state x]> (json_clone m).
Proof. unfold json_clone. apply fmap_insert. Qed.

Lemma pp_entry (edges : list Edge) (start : string) (m : gmap string SnapState)
    (k : string) (z : Z) :
  parent_path edges start m k z ->
  exists a, m !! k = Some a /\ s_status a = permanent /\ s_distance a = JNum z.
Proof. intros H. destruct H; eauto. Qed.

Lemma pp_insert (edges : list Edge) (start : string) (m : gmap string SnapState)
    (k v : string) (z : Z) (x : SnapState) :
  parent_path edges start m k z ->
  (forall a, m !! v = Some a -> s_status a <> permanent) ->
  parent_path edges start (<[v := x]> m) k z.
Proof.
  intros H Hv. induction H as [a Ha Hp Hpar Hd | k p e z a Ha Hp Hpar Hne He Hj Hpp IH Hd].
  - apply (pp_root _ _ _ a); try done.
    rewrite lookup_insert_ne; [done|]. intros ->. by apply (Hv a).
  - apply (pp_edge _ _ _ k p e z a); try done.
    rewrite lookup_insert_ne; [done|]. intros ->. by apply (Hv a).
Qed.

Lemma joins_other_end (u : string) (edges : list Edge) (e : Edge) :
  e ∈ incident u edges -> e ∈ edges /\ joins e u (other_end u e).
Proof.
  intros He. apply incident_spec in He as [He Hends]. split; [done|].
  unfold other_end, joins. destruct (String.eqb (source e) u) eqn:Hs.
  - apply String.eqb_eq in Hs. by left.
  - apply String.eqb_neq in Hs. destruct Hends as [?|Ht]; [done|]. by right.
Qed.

Lemma json_not_perm (m : gmap string AlgorithmNodeState) (v : string) :
  (forall a, m !! v = Some a -> status a <> permanent) ->
  forall a, json_clone m !! v = Some a -> s_status a <> permanent.
Proof.
  intros Hv a Ha. rewrite lookup_json_clone in Ha.
  destruct (m !! v) as [b|] eqn:Hb; [|discriminate]. injection Ha as <-. cbn. eauto.
Qed.

Definition PathInv (edges : list Edge) (start : string)
    (m : gmap string AlgorithmNodeState) : Prop :=
  LabelOk m /\ ParentOk edges start m /\ PathOk edges start m.

Lemma path_inv_init (nodes : list Node) (edges : list Edge) (s : string) :
  PathInv edges s (init_states nodes s).
Proof.
  split; [apply label_ok_init|]. split.
  - intros k a p Ha Hp. rewrite init_states_lookup in Ha. case_decide; [|discriminate].
    injection Ha as <-. unfold init_state in *.
    destruct (String.eqb k s) eqn:Hk; cbn in *; [|discriminate].
    apply String.eqb_eq in Hk. injection Hp as <-. left. subst k. done.
  - intros k a Ha Hp. exfalso. apply (init_states_no_perm nodes s k). by exists a.
Qed.

Lemma path_inv_finalize (nodes : list Node) (edges : list Edge) (s : string)
    (m : gmap string AlgorithmNodeState) (d : Z) (u : string) (a : AlgorithmNodeState) :
  PathInv edges s m -> scan m nodes Inf None = Ok (Fin d, Some u) -> m !! u = Some a ->
  PathInv edges s (<[u := perm_state a]> m).
Proof.
  intros (Hl & Hpar & Hpath) Hs Ha.
  destruct (scan_fin _ _ _ _ Hs) as (a' & Ha' & Hpa & Hd & _).
  rewrite Ha in Ha'. injection Ha' as <-.
  assert (Hu : forall b, json_clone m !! u = Some b -> s_status b <> permanent).
  { apply json_not_perm. intros b Hb. rewrite Ha in Hb. by injection Hb as <-. }
  split; [by eapply label_ok_finalize|]. split.
  - intros k b p Hb Hp. destruct (decide (k = u)) as [->|Hne].
    + rewrite lookup_insert_eq in Hb. injection Hb as <-. cbn in Hp |- *.
      destruct (Hpar u a p Ha Hp) as [H|(Hne & e & ap & He & Hj & Hap & Hpp & Hdist)];
        [by left|].
      right. split; [done|]. exists e, ap. split; [done|]. split; [done|].
      rewrite lookup_insert_ne by done. done.
    + rewrite lookup_insert_ne in Hb by congruence.
      destruct (Hpar k b p Hb Hp) as [H|(Hne' & e & ap & He & Hj & Hap & Hpp & Hdist)];
        [by left|].
      right. split; [done|]. exists e, ap. split; [done|]. split; [done|].
      rewrite lookup_insert_ne; [done|]. intros ->. congruence.
  - intros k b Hb Hp. rewrite json_clone_insert.
    destruct (decide (k = u)) as [->|Hne].
    + rewrite lookup_insert_eq in Hb. injection Hb as <-.
      destruct (parent a) as [p|] eqn:Hpar_a.
      2:{ exfalso. destruct (Hl u a Ha) as [H1 _]. apply H1 in Hpar_a. congruence. }
      destruct (Hpar u a p Ha Hpar_a) as [(-> & -> & Hd0)|(Hne & e & ap & He & Hj & Hap & Hpp & Hdist)].
      * exists 0%Z. apply (pp_root _ _ _ (json_state (perm_state a))).
        -- apply lookup_insert_eq.
        -- done.
        -- cbn. done.
        -- cbn. by rewrite Hd0.
      * destruct (Hpath p ap Hap Hpp) as [z Hz].
        destruct (pp_entry _ _ _ _ _ Hz) as (jp & Hjp & _ & Hjd).
        rewrite lookup_json_clone, Hap in Hjp. injection Hjp as <-.
        cbn in Hjd. destruct (distance ap) as [zp|] eqn:Hdap; cbn in Hjd; [|discriminate].
        injection Hjd as ->.
        exists (z + weight e)%Z.
        apply (pp_edge _ _ _ u p e z (json_state (perm_state a))); try done.
        -- apply lookup_insert_eq.
        -- by apply pp_insert.
        -- cbn. by rewrite Hdist.
    + rewrite lookup_insert_ne in Hb by congruence.
      destruct (Hpath k b Hb Hp) as [z Hz]. exists z. by apply pp_insert.
Qed.

Lemma path_inv_relax (edges : list Edge) (s : string) (m : gmap string AlgorithmNodeState)
    (u : string) (e0 : Edge) (su t : AlgorithmNodeState) :
  PathInv edges s m -> e0 ∈ incident u edges -> m !! u = Some su ->
  status su = permanent -> m !! other_end u e0 = Some t -> status t <> permanent ->
  dist_lt (dist_add (distance su) (weight e0)) (distance t) = true ->
  PathInv edges s (<[other_end u e0 := {| distance := dist_add (distance su) (weight e0);
                                          parent := Some u; status := temporary |}]> m).
Proof.
  intros (Hl & Hpar & Hpath) He Hu Hsu Ht Hpt Hlt.
  set (v := other_end u e0) in *.
  assert (Huv : u <> v) by (intros Heq; rewrite <- Heq, Hu in Ht; congruence).
  assert (Hv : forall b, json_clone m !! v = Some b -> s_status b <> permanent).
  { apply json_not_perm. intros b Hb. rewrite Ht in Hb. by injection Hb as <-. }
  split; [by eapply label_ok_relax|]. split.
  - intros k b p Hb Hp. destruct (decide (k = v)) as [->|Hne].
    + rewrite lookup_insert_eq in Hb. injection Hb as <-. cbn in Hp. injection Hp as <-.
      right. split; [done|]. destruct (joins_other_end u edges e0 He) as [He' Hj].
      exists e0, su. split; [done|]. split; [done|].
      rewrite lookup_insert_ne by done. done.
    + rewrite lookup_insert_ne in Hb by congruence.
      destruct (Hpar k b p Hb Hp) as [H|(Hne' & e & ap & He' & Hj & Hap & Hpp & Hdist)];
        [by left|].
      right. split; [done|]. exists e, ap. split; [done|]. split; [done|].
      rewrite lookup_insert_ne; [done|]. intros Heq. rewrite <- Heq in Hap. congruence.
  - intros k b Hb Hp. rewrite json_clone_insert.
    destruct (decide (k = v)) as [->|Hne].
    + rewrite lookup_insert_eq in Hb. injection Hb as <-. discriminate.
    + rewrite lookup_insert_ne in Hb by congruence.
      destruct (Hpath k b Hb Hp) as [z Hz]. exists z. by apply pp_insert.
Qed.

(** ** Walks in the graph *)

(** A walk from [x] to [z] of total weight [w], crossing edges in either
    direction. *)
Inductive walk (edges : list Edge) : string -> string -> Z -> Prop :=
| walk_nil x : walk edges x x 0
| walk_cons x y z e w :
    e ∈ edges -> joins e x y -> walk edges y z w -> walk edges x z (weight e + w).

(** [m'] is [m] with some non-permanent labels strictly lowered into
    temporary labels with a parent: what the relaxation of edges does. *)
Definition lowered (m m' : gmap string AlgorithmNodeState) : Prop :=
  (forall k, is_Some (m' !! k) <-> is_Some (m !! k)) /\
  (forall k b, m' !! k = Some b -> exists a, m !! k = Some a /\
     (b = a \/ (status a <> permanent /\ status b = temporary /\ parent b <> None /\
                dist_lt (distance b) (distance a) = true))).

Lemma walk_snoc (edges : list Edge) (x y z : string) (w : Z) (e : Edge) :
  walk edges x y w -> e ∈ edges -> joins e y z -> walk edges x z (w + weight e).
Proof.
  intros Hw. revert z. induction Hw as [x|x y' y e' w' He' Hj Hw IH]; intros z He Hj'.
  - replace (0 + weight e)%Z with (weight e + 0)%Z by lia.
    eapply walk_cons; [done | done | constructor].
  - replace (weight e' + w' + weight e)%Z with (weight e' + (w' + weight e))%Z by lia.
    eapply walk_cons; [done | done |]. by apply IH.
Qed.

Lemma walk_nonneg (edges : list Edge) (x y : string) (w : Z) :
  (forall e, e ∈ edges -> (0 <= weight e)%Z) -> walk edges x y w -> (0 <= w)%Z.
Proof.
  intros Hw H. induction H as [x|x y' z e w' He Hj Hwk IH]; [lia|].
  specialize (Hw e He). lia.
Qed.

Lemma joins_incident (edges : list Edge) (e : Edge) (x y : string) :
  e ∈ edges -> joins e x y -> e ∈ incident x edges /\ other_end x e = y.
Proof.
  intros He Hj. split.
  - apply incident_spec. split; [done|]. destruct Hj as [[? ?]|[? ?]]; auto.
  - unfold other_end. destruct Hj as [[Hs Ht]|[Hs Ht]].
    + rewrite Hs, String.eqb_refl. done.
    + destruct (String.eqb (source e) x) eqn:Hsx.
      * apply String.eqb_eq in Hsx. congruence.
      * done.
Qed.

Lemma walk_start_in (nodes : list Node) (edges : list Edge) (x y : string) (w : Z) :
  EdgesWellFormed nodes edges -> walk edges x y w -> y ∈ map id nodes ->
  x ∈ map id nodes.
Proof.
  intros Hwf H Hy. destruct H as [x|x y' z e w' He Hj _]; [done|].
  destruct (Hwf e He) as [Hs Ht]. destruct Hj as [[<- _]|[_ <-]]; done.
Qed.

(** ** Distances *)

Lemma dist_le_fin_inv (a : dist) (w : Z) :
  dist_le a (Fin w) -> exists z, a = Fin z /\ (z <= w)%Z.
Proof. destruct a as [z|]; cbn; [eauto | done]. Qed.

Lemma dist_le_add_mono (a b : dist) (w : Z) :
  dist_le a b -> dist_le (dist_add a w) (dist_add b w).
Proof. destruct a, b; cbn; try done. lia. Qed.

Lemma dist_le_fin_mono (a : dist) (p q : Z) :
  dist_le a (Fin p) -> (p <= q)%Z -> dist_le a (Fin q).
Proof. destruct a; cbn; [lia | done]. Qed.

Lemma dist_le_not_inf (a b : dist) (w : Z) :
  dist_le a (dist_add b w) -> b <> Inf -> a <> Inf.
Proof. destruct a, b; cbn; congruence. Qed.

(** ** Lowering labels *)

Lemma lowered_refl (m : gmap string AlgorithmNodeState) : lowered m m.
Proof. split; [done|]. intros k b Hb. exists b. auto. Qed.

Lemma lowered_trans (m1 m2 m3 : gmap string AlgorithmNodeState) :
  lowered m1 m2 -> lowered m2 m3 -> lowered m1 m3.
Proof.
  intros [D12 L12] [D23 L23]. split; [intros k; by rewrite D23, D12|].
  intros k c Hc. destruct (L23 k c Hc) as (b & Hb & Hcb).
  destruct (L12 k b Hb) as (a & Ha & Hba). exists a. split; [done|].
  destruct Hcb as [->|(Hpb & Htc & Hpc & Hlt)]; [done|].
  destruct Hba as [->|(Hpa & Htb & Hpb' & Hlt')]; [by right|].
  right. repeat split; try done. by eapply dist_lt_trans.
Qed.

Lemma lowered_perm (m m' : gmap string AlgorithmNodeState) (k : string)
    (a : AlgorithmNodeState) :
  lowered m m' -> m !! k = Some a -> status a = permanent -> m' !! k = Some a.
Proof.
  intros [D L] Ha Hp. destruct (proj2 (D k) (mk_is_Some _ _ Ha)) as [b Hb].
  destruct (L k b Hb) as (a' & Ha' & Hba). rewrite Ha in Ha'. injection Ha' as <-.
  destruct Hba as [->|(? & _)]; [done | congruence].
Qed.

Lemma lowered_perm_back (m m' : gmap string AlgorithmNodeState) (k : string)
    (b : AlgorithmNodeState) :
  lowered m m' -> m' !! k = Some b -> status b = permanent -> m !! k = Some b.
Proof.
  intros [D L] Hb Hp. destruct (L k b Hb) as (a & Ha & [->|(_ & Ht & _)]); [done|].
  congruence.
Qed.

Lemma lowered_perm_in_store (m m' : gmap string AlgorithmNodeState) (k : string) :
  lowered m m' -> perm_in_store m' k <-> perm_in_store m k.
Proof.
  intros Hl. split.
  - intros (b & Hb & Hp). exists b. split; [|done]. by eapply lowered_perm_back.
  - intros (a & Ha & Hp). exists a. split; [|done]. by eapply lowered_perm.
Qed.

Lemma lowered_bound (m m' : gmap string AlgorithmNodeState) (y : string)
    (ty : AlgorithmNodeState) (B : dist) :
  lowered m m' -> m !! y = Some ty ->
  (status ty <> permanent -> dist_le (distance ty) B) ->
  exists ty', m' !! y = Some ty' /\ (status ty' <> permanent -> dist_le (distance ty') B).
Proof.
  intros [D L] Hty HB. destruct (proj2 (D y) (mk_is_Some _ _ Hty)) as [b Hb].
  exists b. split; [done|]. destruct (L y b Hb) as (a & Ha & Hba).
  rewrite Hty in Ha. injection Ha as <-.
  destruct Hba as [->|(Hpa & Htb & _ & Hlt)]; [done|].
  intros _. eapply dist_le_trans; [by apply dist_lt_le | by apply HB].
Qed.

Lemma lowered_label_ok (m m' : gmap string AlgorithmNodeState) :
  lowered m m' -> LabelOk m -> LabelOk m'.
Proof.
  intros [D L] Hl k b Hb. destruct (L k b Hb) as (a & Ha & [->|(_ & Ht & Hp & Hlt)]).
  - by apply (Hl k).
  - assert (Hd : distance b <> Inf) by (intros Hd; rewrite Hd in Hlt; discriminate).
    rewrite Ht. split; split; intros H; congruence.
Qed.

Lemma lowered_not_unvisited (m m' : gmap string AlgorithmNodeState) (k : string) :
  lowered m m' ->
  (forall a, m !! k = Some a -> status a <> unvisited) ->
  (forall b, m' !! k = Some b -> status b <> unvisited).
Proof.
  intros [D L] Hm b Hb. destruct (L k b Hb) as (a & Ha & [->|(_ & Ht & _)]); [eauto|].
  congruence.
Qed.

Lemma lowered_insert (m : gmap string AlgorithmNodeState) (k : string)
    (a b : AlgorithmNodeState) :
  m !! k = Some a -> status a <> permanent -> status b = temporary ->
  parent b <> None -> dist_lt (distance b) (distance a) = true ->
  lowered m (<[k := b]> m).
Proof.
  intros Ha Hpa Htb Hpb Hlt. split.
  - intros k'. destruct (decide (k' = k)) as [->|Hne].
    + rewrite lookup_insert_eq, Ha. split; intros _; by eexists.
    + by rewrite lookup_insert_ne by congruence.
  - intros k' c Hc. destruct (decide (k' = k)) as [->|Hne].
    + rewrite lookup_insert_eq in Hc. injection Hc as <-. exists a. split; [done|].
      by right.
    + rewrite lookup_insert_ne in Hc by congruence. exists c. auto.
Qed.

(** One relaxed edge lowers the labels and leaves the other end within
    [distance u + weight] of the start. *)
Lemma relaxed_lowered (u : string) (e : Edge) (su t : AlgorithmNodeState)
    (st : RunState) :
  store st !! u = Some su -> status su = permanent ->
  store st !! other_end u e = Some t -> status t <> permanent ->
  lowered (store st) (store (relaxed u e su t st)) /\
  exists ty, store (relaxed u e su t st) !! other_end u e = Some ty /\
    dist_le (distance ty) (dist_add (distance su) (weight e)).
Proof.
  intros Hu Hsu Ht Hpt. unfold relaxed.
  destruct (dist_lt _ (distance t)) eqn:Hlt; cbn [snapshot store].
  - split.
    + eapply lowered_insert; [exact Ht | done | done | done | exact Hlt].
    + eexists. rewrite lookup_insert_eq. split; [done|]. apply dist_le_refl.
  - split; [apply lowered_refl|]. exists t. split; [done|]. by apply dist_not_lt_le.
Qed.

(** The relaxation phase of a permanent node [u]: labels are only lowered,
    [u] keeps its label, every edge of the list leaves its other end within
    [distance u + weight], and every step it emits shows lowered labels. *)
Lemma relax_all_lowered (u : string) (su : AlgorithmNodeState) (es : list Edge)
    (st st' : RunState) :
  store st !! u = Some su -> status su = permanent -> relax_all u es st = Ok st' ->
  lowered (store st) (store st') /\ perms st' = perms st /\ store st' !! u = Some su /\
  (forall e, e ∈ es -> exists ty, store st' !! other_end u e = Some ty /\
     (status ty <> permanent -> dist_le (distance ty) (dist_add (distance su) (weight e)))) /\
  (forall i x, steps st' !! i = Some x ->
     steps st !! i = Some x \/ exists m, lowered (store st) m /\ nodeStates x = json_clone m).
Proof.
  intros Hu Hsu. revert st Hu. induction es as [|e es IH]; intros st Hu Hr; cbn in Hr.
  - injection Hr as <-. split; [apply lowered_refl|]. split; [done|]. split; [done|].
    split; [intros e He; set_solver|]. auto.
  - destruct (relax_edge u st e) as [st1|] eqn:Hst1; cbn in Hr; [|discriminate].
    assert (He1 : exists ty, store st1 !! other_end u e = Some ty /\
      (status ty <> permanent -> dist_le (distance ty) (dist_add (distance su) (weight e)))).
    { destruct (relax_edge_inv u st st1 e su Hu Hsu Hst1) as [[Hex ->] | (t & Ht & Hpt & _ & ->)].
      - unfold relax_edge, get in Hst1. unfold examined in Hex.
        destruct (store st !! other_end u e) as [t|]; [|discriminate].
        exists t. split; [done|]. intros Hpt. rewrite bool_decide_eq_true_2 in Hex; done.
      - destruct (relaxed_lowered u e su t st Hu Hsu Ht Hpt) as (_ & ty & Hty & Hle).
        eauto. }
    assert (Hst1' : lowered (store st) (store st1) /\ perms st1 = perms st /\
      store st1 !! u = Some su /\
      (forall i x, steps st1 !! i = Some x ->
         steps st !! i = Some x \/ exists m, lowered (store st) m /\ nodeStates x = json_clone m)).
    { destruct (relax_edge_inv u st st1 e su Hu Hsu Hst1) as [[_ ->] | (t & Ht & Hpt & _ & ->)].
      - split; [apply lowered_refl|]. auto.
      - destruct (relaxed_facts u e su t st Hu Hsu Ht Hpt) as
          (Hu1 & _ & _ & Hp1 & s & Hsteps & _ & _ & Hns & _).
        destruct (relaxed_lowered u e su t st Hu Hsu Ht Hpt) as (Hlow & _).
        split; [done|]. split; [done|]. split; [done|].
        intros i x Hx. rewrite Hsteps in Hx.
        apply lookup_snoc_Some in Hx as [[_ Hx]|[_ <-]]; [by left|].
        right. eexists. split; [exact Hlow | exact Hns]. }
    destruct Hst1' as (Hlow1 & Hp1 & Hu1 & Hs1).
    destruct (IH st1 Hu1 Hr) as (Hlow & Hp & Hu' & Hes & Hs).
    split; [by eapply lowered_trans|]. split; [congruence|]. split; [done|]. split.
    + intros e' He'. apply elem_of_cons in He' as [->|He'].
      * destruct He1 as (ty & Hty & Hle). by eapply lowered_bound.
      * by apply Hes.
    + intros i x Hx. destruct (Hs i x Hx) as [Hx1|(m & Hm & Hns)].
      * by apply Hs1.
      * right. exists m. split; [by eapply lowered_trans | done].
Qed.

(** ** The loop head *)

(** Every edge [e] at a permanent node [x] leaves its other end [y] in the
    store, and within [distance x + weight e] while [y] is not permanent. *)
Definition EdgeBound (edges : list Edge) (m : gmap string AlgorithmNodeState)
    (x : string) : Prop :=
  forall e y ax, m !! x = Some ax -> e ∈ edges -> joins e x y ->
    exists ty, m !! y = Some ty /\
      (status ty <> permanent -> dist_le (distance ty) (dist_add (distance ax) (weight e))).

Definition EdgesRelaxed (edges : list Edge) (m : gmap string AlgorithmNodeState) : Prop :=
  forall x ax, m !! x = Some ax -> status ax = permanent -> EdgeBound edges m x.

Definition HeadInv (nodes : list Node) (edges : list Edge) (start : string)
    (st : RunState) : Prop :=
  Keys nodes (store st) /\ LabelOk (store st) /\ EdgesRelaxed edges (store st) /\
  (forall ts, store st !! start = Some ts -> status ts <> unvisited) /\
  (forall x, x ∈ perms st <-> perm_in_store (store st) x) /\ NoDup (perms st).

Lemma edge_bound_finalize (edges : list Edge) (m : gmap string AlgorithmNodeState)
    (x u : string) (ax a : AlgorithmNodeState) :
  EdgeBound edges m x -> m !! x = Some ax -> x <> u ->
  EdgeBound edges (<[u := perm_state a]> m) x.
Proof.
  intros Hb Hx Hxu e y ax' Hx' He Hj. rewrite lookup_insert_ne in Hx' by congruence.
  rewrite Hx in Hx'. injection Hx' as <-.
  destruct (Hb e y ax Hx He Hj) as (ty & Hty & Hle).
  destruct (decide (y = u)) as [->|Hyu].
  - rewrite lookup_insert_eq. eexists. split; [done|]. cbn. done.
  - rewrite lookup_insert_ne by congruence. eauto.
Qed.

Lemma edge_bound_lowered (edges : list Edge) (m m' : gmap string AlgorithmNodeState)
    (x : string) (ax : AlgorithmNodeState) :
  EdgeBound edges m x -> m !! x = Some ax -> status ax = permanent -> lowered m m' ->
  EdgeBound edges m' x.
Proof.
  intros Hb Hx Hp Hl e y ax' Hx' He Hj.
  rewrite (lowered_perm m m' x ax Hl Hx Hp) in Hx'. injection Hx' as <-.
  destruct (Hb e y ax Hx He Hj) as (ty & Hty & Hle). by eapply lowered_bound.
Qed.

Lemma head_init (nodes : list Node) (edges : list Edge) (s : string) :
  HeadInv nodes edges s
    (snapshot DInit None None {| store := init_states nodes s; perms := []; steps := [] |}).
Proof.
  unfold HeadInv. cbn [snapshot store perms]. split; [apply keys_init|]. split; [apply label_ok_init|].
  split; [|split; [|split]].
  - intros x ax Hx Hp. exfalso. apply (init_states_no_perm nodes s x). by exists ax.
  - intros ts Hts. rewrite init_states_lookup in Hts. case_decide; [|discriminate].
    injection Hts as <-. unfold init_state. rewrite String.eqb_refl. discriminate.
  - intros x. split; [intros Hx; set_solver|]. intros Hx. exfalso.
    by apply (init_states_no_perm nodes s x).
  - constructor.
Qed.

(** One iteration that finalizes [u] and relaxes its edges keeps the loop
    head invariant and adds [u] to the permanent nodes. *)
Lemma head_step (nodes : list Node) (edges : list Edge) (s : string) (st st3 : RunState)
    (d : Z) (u : string) (a : AlgorithmNodeState) :
  HeadInv nodes edges s st -> scan (store st) nodes Inf None = Ok (Fin d, Some u) ->
  store st !! u = Some a ->
  relax_all u (incident u edges)
    (snapshot (DFinalize u (distance a)) (Some u) None (finalized st u a)) = Ok st3 ->
  HeadInv nodes edges s st3 /\ perms st3 = perms st ++ [u] /\
  lowered (<[u := perm_state a]> (store st)) (store st3).
Proof.
  intros (Hk & Hl & Her & Hs0 & Hperm & Hnd) Hs Ha Hr.
  destruct (scan_fin _ _ _ _ Hs) as (a' & Ha' & Hpa & Hd & Hun & _).
  rewrite Ha in Ha'. injection Ha' as <-.
  destruct (relax_all_lowered u (perm_state a) (incident u edges) _ st3
              (lookup_insert_eq _ _ _) eq_refl Hr) as (Hlow & Hp3 & Hu3 & Hes & _).
  cbn [snapshot finalized store perms] in Hlow, Hp3, Hes.
  set (m1 := <[u := perm_state a]> (store st)) in *.
  split; [|split; [done | done]].
  split; [|split; [|split; [|split; [|split]]]].
  - intros k. rewrite (proj1 Hlow k). apply keys_insert; [done|]. by eexists.
  - eapply lowered_label_ok; [exact Hlow|]. by eapply label_ok_finalize.
  - intros x bx Hx Hp. pose proof (lowered_perm_back _ _ _ _ Hlow Hx Hp) as Hx1.
    destruct (decide (x = u)) as [->|Hxu].
    + rewrite Hu3 in Hx. injection Hx as <-.
      intros e y ax Hx He Hj. rewrite Hu3 in Hx. injection Hx as <-.
      destruct (joins_incident edges e u y He Hj) as [Hinc <-]. by apply Hes.
    + subst m1. rewrite lookup_insert_ne in Hx1 by congruence.
      eapply edge_bound_lowered; [| | exact Hp | exact Hlow].
      * eapply edge_bound_finalize; [| exact Hx1 | done]. by apply (Her x bx).
      * rewrite lookup_insert_ne by congruence. done.
  - eapply lowered_not_unvisited; [exact Hlow|]. intros b Hb. subst m1.
    destruct (decide (s = u)) as [->|Hsu].
    + rewrite lookup_insert_eq in Hb. injection Hb as <-. discriminate.
    + rewrite lookup_insert_ne in Hb by congruence. eauto.
  - intros x. rewrite Hp3, (lowered_perm_in_store _ _ _ Hlow).
    rewrite elem_of_app, list_elem_of_singleton, Hperm. subst m1. split.
    + intros [(b & Hb & Hpb)| ->].
      * exists b. rewrite lookup_insert_ne; [done|]. intros ->. congruence.
      * exists (perm_state a). by rewrite lookup_insert_eq.
    + intros (b & Hb & Hpb). destruct (decide (x = u)) as [->|Hxu]; [by right|].
      left. exists b. by rewrite lookup_insert_ne in Hb by congruence.
  - rewrite Hp3. apply NoDup_app. split; [done|]. split; [|apply NoDup_singleton].
    intros x Hx ->%list_elem_of_singleton. apply Hperm in Hx as (b & Hb & Hpb).
    congruence.
Qed.

Lemma loop_S_fin (cnt : nat) (nodes : list Node) (edges : list Edge)
    (endNodeId : string) (st : RunState) (d : Z) (u : string) (a : AlgorithmNodeState) :
  scan (store st) nodes Inf None = Ok (Fin d, Some u) -> store st !! u = Some a ->
  loop (S cnt) nodes edges endNodeId st =
    let st2 := snapshot (DFinalize u (distance a)) (Some u) None (finalized st u a) in
    if String.eqb u endNodeId then Ok (snapshot (DArrive u) (Some u) None st2)
    else st3 ← relax_all u (incident u edges) st2; loop cnt nodes edges endNodeId st3.
Proof.
  intros Hs Ha. cbn [loop]. rewrite Hs. cbn -[snapshot relax_all loop].
  unfold finalize, get. rewrite Ha. cbn -[snapshot relax_all loop].
  rewrite lookup_insert_eq. reflexivity.
Qed.

(** ** Reaching the end node *)

(** Along a walk that leaves the permanent region, some node is not
    permanent and has a finite label. *)
Lemma frontier_fin (edges : list Edge) (m : gmap string AlgorithmNodeState)
    (x z : string) (w : Z) :
  walk edges x z w -> EdgesRelaxed edges m ->
  (forall k ak, m !! k = Some ak -> status ak = permanent -> distance ak <> Inf) ->
  (exists ta, m !! x = Some ta /\ distance ta <> Inf) -> ~ perm_in_store m z ->
  exists y ty, m !! y = Some ty /\ status ty <> permanent /\ distance ty <> Inf.
Proof.
  intros Hw Her Hpf. induction Hw as [x|x y z e w He Hj Hw IH]; intros (ta & Hta & Hd) Hz.
  - exists x, ta. repeat split; try done. intros Hp. apply Hz. by exists ta.
  - destruct (decide (status ta = permanent)) as [Hp|Hp]; [|by exists x, ta].
    destruct (Her x ta Hta Hp e y ta Hta He Hj) as (ty & Hty & Hle).
    apply IH; [|done]. exists ty. split; [done|].
    destruct (decide (status ty = permanent)) as [Hpy|Hpy]; [by eapply Hpf|].
    by eapply dist_le_not_inf; [apply Hle|].
Qed.

Lemma loop_reaches_end (nodes : list Node) (edges : list Edge) (s endNodeId : string)
    (w : Z) :
  EdgesWellFormed nodes edges -> endNodeId ∈ map id nodes -> walk edges s endNodeId w ->
  forall cnt st, HeadInv nodes edges s st -> cnt + length (perms st) = length nodes ->
  ~ perm_in_store (store st) endNodeId ->
  exists st' x a, loop cnt nodes edges endNodeId st = Ok st' /\
    last (steps st') = Some x /\ description x = DArrive endNodeId /\
    nodeStates x !! endNodeId = Some a /\ s_status a = permanent.
Proof.
  intros Hwf Hend Hwalk. induction cnt as [|cnt IH]; intros st Hh Hcnt Hnp.
  - exfalso. destruct Hh as (Hk & _ & _ & _ & Hperm & Hnd).
    assert (Hle : length (endNodeId :: perms st) <= length (map id nodes)).
    { apply NoDup_incl_length.
      - apply NoDup_ListNoDup. constructor; [|done].
        intros Hin. apply Hnp, Hperm, Hin.
      - intros x Hx. apply list_elem_of_In. apply list_elem_of_In in Hx.
        apply elem_of_cons in Hx as [->|Hx]; [done|].
        apply Hperm in Hx as (b & Hb & _). apply Hk. by eexists. }
    rewrite length_map in Hle. cbn in Hle. lia.
  - pose proof Hh as (Hk & Hl & Her & Hs0 & Hperm & Hnd).
    destruct (scan_ok (store st) nodes Inf None) as [p Hp].
    { intros n Hn. apply Hk. apply list_elem_of_In, in_map. by apply list_elem_of_In. }
    assert (Hfr : exists y ty, store st !! y = Some ty /\ status ty <> permanent /\
                    distance ty <> Inf).
    { eapply frontier_fin; [exact Hwalk | exact Her | | | exact Hnp].
      - intros k ak Hak Hpk Hinf. apply (proj2 (Hl k ak Hak)) in Hinf. congruence.
      - destruct (proj2 (Hk s) (walk_start_in nodes edges _ _ _ Hwf Hwalk Hend)) as [ts Hts].
        exists ts. split; [done|]. intros Hinf. apply (proj2 (Hl s ts Hts)) in Hinf.
        by apply (Hs0 ts). }
    destruct Hfr as (y & ty & Hty & Hpy & Hdy).
    assert (Hyn : exists n, n ∈ nodes /\ id n = y).
    { assert (Hy : y ∈ map id nodes) by (apply Hk; by eexists).
      apply list_elem_of_In, in_map_iff in Hy as (n & <- & Hn).
      exists n. split; [by apply list_elem_of_In | done]. }
    destruct Hyn as (n & Hn & <-).
    destruct p as [d0 u0].
    destruct (scan_spec _ _ _ _ _ _ Hp) as [(-> & -> & Hmin) |
      (i & n' & a & Hi & -> & Ha & Hpa & Hd & Hlt & _)].
    { exfalso. specialize (Hmin n ty Hn Hty Hpy). destruct (distance ty); done. }
    destruct d0 as [d0|]; [|discriminate].
    set (u := id n') in *.
    rewrite (loop_S_fin cnt nodes edges endNodeId st d0 u a Hp Ha). cbn zeta.
    destruct (String.eqb u endNodeId) eqn:Hue.
    + apply String.eqb_eq in Hue. rewrite <- Hue.
      eexists _, _, (json_state (perm_state a)). split; [reflexivity|].
      cbn [snapshot steps]. rewrite last_snoc. split; [reflexivity|]. split; [done|].
      cbn [nodeStates snapshot finalized store].
      rewrite lookup_json_clone, lookup_insert_eq. done.
    + apply String.eqb_neq in Hue.
      set (st2 := snapshot (DFinalize u (distance a)) (Some u) None (finalized st u a)).
      assert (Hu2 : store st2 !! u = Some (perm_state a)) by apply lookup_insert_eq.
      destruct (relax_all_spec u (perm_state a) (incident u edges) st2 Hu2 eq_refl)
        as (st3 & _ & Hr3 & _).
      { intros e He. cbn [st2 snapshot finalized store].
        apply (keys_insert nodes (store st) u (perm_state a) Hk (mk_is_Some _ _ Ha)).
        apply incident_spec in He as [He _]. destruct (Hwf e He) as [Hse Hte].
        unfold other_end. by destruct (String.eqb _ _). }
      destruct (head_step nodes edges s st st3 d0 u a Hh Hp Ha Hr3) as (Hh3 & Hp3 & Hlow).
      destruct (IH st3 Hh3) as (st' & x & b & Hl' & Hrest).
      { rewrite Hp3, length_app. cbn. lia. }
      { rewrite (lowered_perm_in_store _ _ _ Hlow). intros (c & Hc & Hpc).
        rewrite lookup_insert_ne in Hc by congruence. apply Hnp. by exists c. }
      exists st', x, b. rewrite Hr3. cbn -[loop]. split; [done | exact Hrest].
Qed.

(** ** Optimality of permanent labels *)

Definition StoreOpt (edges : list Edge) (s : string) (m : gmap string AlgorithmNodeState)
  : Prop :=
  forall k a w, m !! k = Some a -> status a = permanent -> walk edges s k w ->
    dist_le (distance a) (Fin w).

Definition SnapOpt (edges : list Edge) (s : string) (n : gmap string SnapState) : Prop :=
  forall k a, n !! k = Some a -> s_status a = permanent ->
    forall w, walk edges s k w -> exists z, s_distance a = JNum z /\ (z <= w)%Z.

Definition StepsOpt (edges : list Edge) (s : string) (l : list AlgorithmStep) : Prop :=
  forall i x, l !! i = Some x -> SnapOpt edges s (nodeStates x).

Definition OptInv (edges : list Edge) (s : string) (st : RunState) : Prop :=
  StoreOpt edges s (store st) /\
  (forall ts, store st !! s = Some ts -> status ts <> permanent ->
     dist_le (distance ts) (Fin 0)) /\
  (store st !! s = None -> forall k a, store st !! k = Some a -> distance a = Inf) /\
  StepsOpt edges s (steps st).

Lemma store_snap_opt (edges : list Edge) (s : string) (m : gmap string AlgorithmNodeState) :
  StoreOpt edges s m -> SnapOpt edges s (json_clone m).
Proof.
  intros Ho k a Ha Hp w Hw. rewrite lookup_json_clone in Ha.
  destruct (m !! k) as [b|] eqn:Hb; [|discriminate]. injection Ha as <-.
  destruct (dist_le_fin_inv _ _ (Ho k b w Hb Hp Hw)) as (z & Hz & Hle).
  exists z. cbn. by rewrite Hz.
Qed.

Lemma steps_opt_snapshot (edges : list Edge) (s : string) (desc : Desc)
    (act edg : option string) (st : RunState) :
  StepsOpt edges s (steps st) -> StoreOpt edges s (store st) ->
  StepsOpt edges s (steps (snapshot desc act edg st)).
Proof.
  intros Hs Ho i x Hx. cbn [snapshot steps] in Hx.
  apply lookup_snoc_Some in Hx as [[_ Hx]|[_ <-]]; [by eapply Hs|].
  by apply store_snap_opt.
Qed.

Lemma store_opt_lowered (edges : list Edge) (s : string)
    (m m' : gmap string AlgorithmNodeState) :
  StoreOpt edges s m -> lowered m m' -> StoreOpt edges s m'.
Proof.
  intros Ho Hl k b w Hb Hp Hw. apply (Ho k b w); [|done|done].
  by eapply lowered_perm_back.
Qed.

(** With non-negative weights, a walk from the start that leaves the
    permanent region meets a non-permanent node whose label is at most the
    weight of the walk. *)
Lemma frontier_opt (edges : list Edge) (s : string) (m : gmap string AlgorithmNodeState) :
  (forall e, e ∈ edges -> (0 <= weight e)%Z) ->
  EdgesRelaxed edges m -> StoreOpt edges s m ->
  forall x z r, walk edges x z r -> forall p, walk edges s x p ->
  (exists tx, m !! x = Some tx /\ (status tx <> permanent -> dist_le (distance tx) (Fin p))) ->
  ~ perm_in_store m z ->
  exists y ty, m !! y = Some ty /\ status ty <> permanent /\
    dist_le (distance ty) (Fin (p + r)).
Proof.
  intros Hw Her Ho x z r Hwk.
  induction Hwk as [x|x y z e w He Hj Hwk IH]; intros p Hp (tx & Htx & Hle) Hz.
  - assert (Hpx : status tx <> permanent) by (intros Hpx; apply Hz; by exists tx).
    exists x, tx. repeat split; try done. rewrite Z.add_0_r. by apply Hle.
  - destruct (decide (status tx = permanent)) as [Hpx|Hpx].
    + destruct (Her x tx Htx Hpx e y tx Htx He Hj) as (ty & Hty & Hley).
      pose proof (Ho x tx p Htx Hpx Hp) as Hlex.
      destruct (IH (p + weight e)%Z) as (y' & ty' & Hty' & Hpy' & Hle').
      { by eapply walk_snoc. }
      { exists ty. split; [done|]. intros Hpy. eapply dist_le_trans; [by apply Hley|].
        by apply (dist_le_add_mono _ (Fin p)). }
      { done. }
      exists y', ty'. repeat split; try done. by rewrite Z.add_assoc.
    + exists x, tx. repeat split; try done. eapply dist_le_fin_mono; [by apply Hle|].
      pose proof (Hw e He). pose proof (walk_nonneg edges y z w Hw Hwk). lia.
Qed.

Lemma opt_finalize (nodes : list Node) (edges : list Edge) (s : string) (st : RunState)
    (d : Z) (u : string) (a : AlgorithmNodeState) :
  (forall e, e ∈ edges -> (0 <= weight e)%Z) ->
  HeadInv nodes edges s st -> OptInv edges s st ->
  scan (store st) nodes Inf None = Ok (Fin d, Some u) -> store st !! u = Some a ->
  StoreOpt edges s (<[u := perm_state a]> (store st)) /\
  (forall ts, <[u := perm_state a]> (store st) !! s = Some ts -> status ts <> permanent ->
     dist_le (distance ts) (Fin 0)) /\
  is_Some (store st !! s).
Proof.
  intros Hw (Hk & _ & Her & _) (Ho & Ho3 & Hnone & _) Hs Ha.
  destruct (scan_fin _ _ _ _ Hs) as (a' & Ha' & Hpa & Hd & _ & Hmin).
  rewrite Ha in Ha'. injection Ha' as <-.
  assert (Hss : is_Some (store st !! s)).
  { destruct (store st !! s) eqn:Hs0; [by eexists|].
    exfalso. rewrite (Hnone eq_refl u a Ha) in Hd. discriminate. }
  split; [|split; [|done]].
  - intros k b w Hb Hp Hwk. destruct (decide (k = u)) as [->|Hku].
    + rewrite lookup_insert_eq in Hb. injection Hb as <-. cbn. rewrite Hd.
      destruct Hss as [ts Hts].
      destruct (frontier_opt edges s (store st) Hw Her Ho s u w Hwk 0%Z (walk_nil _ _))
        as (y & ty & Hty & Hpy & Hley).
      { exists ts. split; [done|]. by apply Ho3. }
      { intros (c & Hc & Hpc). congruence. }
      assert (Hy : y ∈ map id nodes) by (apply Hk; by eexists).
      apply list_elem_of_In, in_map_iff in Hy as (n & Hny & Hn).
      subst y. eapply dist_le_trans; [|exact Hley].
      apply (Hmin n ty); [by apply list_elem_of_In | done | done].
    + rewrite lookup_insert_ne in Hb by congruence. by apply (Ho k b w).
  - intros ts Hts Hpt. destruct (decide (s = u)) as [->|Hsu].
    + rewrite lookup_insert_eq in Hts. injection Hts as <-. done.
    + rewrite lookup_insert_ne in Hts by congruence. by apply Ho3.
Qed.

Lemma loop_optimal (nodes : list Node) (edges : list Edge) (s endNodeId : string) :
  (forall e, e ∈ edges -> (0 <= weight e)%Z) ->
  forall cnt st st', HeadInv nodes edges s st -> OptInv edges s st ->
  loop cnt nodes edges endNodeId st = Ok st' -> StepsOpt edges s (steps st').
Proof.
  intros Hw. induction cnt as [|cnt IH]; intros st st' Hh Ho Hl.
  - cbn in Hl. injection Hl as <-. apply Ho.
  - pose proof Ho as (Hso & Ho3 & Hnone & Hsteps).
    destruct (loop_S cnt nodes edges endNodeId st st' Hl) as
      [(p & _ & _ & ->) | (d & u & a & Hs & Ha & Hrest)].
    + by apply steps_opt_snapshot.
    + destruct (opt_finalize nodes edges s st d u a Hw Hh Ho Hs Ha) as (Hso1 & Ho31 & Hss).
      set (st2 := snapshot (DFinalize u (distance a)) (Some u) None (finalized st u a)) in *.
      assert (Hsteps2 : StepsOpt edges s (steps st2)) by (by apply steps_opt_snapshot).
      destruct Hrest as [[_ ->]|(_ & st3 & Hr3 & Hl3)].
      * by apply steps_opt_snapshot.
      * destruct (relax_all_lowered u (perm_state a) (incident u edges) st2 st3
                    (lookup_insert_eq _ _ _) eq_refl Hr3) as (Hlow & _ & _ & _ & Hst3).
        cbn [st2 snapshot finalized store] in Hlow.
        destruct (head_step nodes edges s st st3 d u a Hh Hs Ha Hr3) as (Hh3 & _).
        apply (IH st3); [done| |done].
        split; [|split; [|split]].
        -- by eapply store_opt_lowered.
        -- intros ts Hts Hpt. destruct Hlow as [D L].
           destruct (L s ts Hts) as (t0 & Ht0 & [->|(Hp0 & _ & _ & Hlt)]); [by apply Ho31|].
           eapply dist_le_trans; [by apply dist_lt_le | by apply Ho31].
        -- intros Hn. exfalso. destruct Hss as [ts Hts].
           assert (Hs1 : is_Some (<[u := perm_state a]> (store st) !! s)).
           { destruct (decide (s = u)) as [->|Hsu]; [rewrite lookup_insert_eq; by eexists|].
             rewrite lookup_insert_ne by congruence. by eexists. }
           apply (proj1 Hlow s) in Hs1. rewrite Hn in Hs1. by destruct Hs1.
        -- intros i x Hx. destruct (Hst3 i x Hx) as [Hx2|(m & Hm & Hns)].
           ++ by apply (Hsteps2 i x).
           ++ rewrite Hns. apply store_snap_opt. eapply store_opt_lowered; [exact Hso1|].
              exact Hm.
Qed.

Lemma opt_init (nodes : list Node) (edges : list Edge) (s : string) :
  OptInv edges s
    (snapshot DInit None None {| store := init_states nodes s; perms := []; steps := [] |}).
Proof.
  assert (Hso : StoreOpt edges s (init_states nodes s)).
  { intros k a w Ha Hp _. exfalso. apply (init_states_no_perm nodes s k). by exists a. }
  unfold OptInv. split; [done|]. split; [|split].
  - intros ts Hts _. cbn [snapshot store] in Hts. rewrite init_states_lookup in Hts.
    case_decide; [|discriminate]. injection Hts as <-. unfold init_state.
    rewrite String.eqb_refl. cbn. lia.
  - cbn [snapshot store]. intros Hn k a Ha. rewrite init_states_lookup in Hn.
    case_decide as Hs; [discriminate|]. rewrite init_states_lookup in Ha.
    case_decide as Hk; [|discriminate].
    injection Ha as <-. unfold init_state. destruct (String.eqb k s) eqn:Hks; [|done].
    apply String.eqb_eq in Hks. subst k. done.
  - apply steps_opt_snapshot; [|done]. intros i x Hx. cbn in Hx. by destruct i.
Qed.


(** ** Whole runs *)

Lemma run_optimal (nodes : list Node) (edges : list Edge) (s e : string)
    (l : list AlgorithmStep) :
  (forall ed, ed ∈ edges -> (0 <= weight ed)%Z) ->
  runDoubleLabeling nodes edges s e = Ok l -> StepsOpt edges s l.
Proof.
  intros Hw Hr. unfold runDoubleLabeling in Hr.
  destruct (loop _ _ _ _ _) as [st|] eqn:Hl; cbn in Hr; [|discriminate].
  injection Hr as <-. eapply loop_optimal; [exact Hw | apply head_init | apply opt_init | exact Hl].
Qed.

Lemma run_reaches_end (nodes : list Node) (edges : list Edge) (s e : string) (w : Z) :
  EdgesWellFormed nodes edges -> e ∈ map id nodes -> walk edges s e w ->
  exists l x a, runDoubleLabeling nodes edges s e = Ok l /\ last l = Some x /\
    description x = DArrive e /\ nodeStates x !! e = Some a /\ s_status a = permanent.
Proof.
  intros Hwf He Hwk. unfold runDoubleLabeling.
  destruct (loop_reaches_end nodes edges s e w Hwf He Hwk (length nodes) _ (head_init nodes edges s))
    as (st' & x & a & Hl & Hlast & Hd & Ha & Hp).
  { cbn. lia. }
  { cbn [snapshot store]. apply init_states_no_perm. }
  exists (steps st'), x, a. rewrite Hl. cbn. done.
Qed.

Lemma run_parent_path (nodes : list Node) (edges : list Edge)
    (startNodeId endNodeId : string) (l : list AlgorithmStep) :
  runDoubleLabeling nodes edges startNodeId endNodeId = Ok l ->
  forall i x k a, l !! i = Some x -> nodeStates x !! k = Some a ->
    s_status a = permanent ->
    exists z, s_distance a = JNum z /\ parent_path edges startNodeId (nodeStates x) k z.
Proof.
  intros Hr i x k a Hx. revert k a.
  refine (run_store_invariant (PathInv edges startNodeId)
            (fun n => forall k a, n !! k = Some a -> s_status a = permanent ->
               exists z, s_distance a = JNum z /\ parent_path edges startNodeId n k z)
            nodes edges startNodeId endNodeId l _ _ _ _ Hr i x Hx).
  - apply path_inv_init.
  - intros m d u a Hi Hs Ha. by eapply path_inv_finalize.
  - intros m u e0 su t Hi He Hu Hsu Ht Hpt Hlt. by eapply path_inv_relax.
  - intros m (_ & _ & Hpath) k a Ha Hp. rewrite lookup_json_clone in Ha.
    destruct (m !! k) as [b|] eqn:Hb; [|discriminate]. injection Ha as <-.
    destruct (Hpath k b Hb Hp) as [z Hz]. exists z. split; [|done].
    destruct (pp_entry _ _ _ _ _ Hz) as (c & Hc & _ & Hcd).
    rewrite lookup_json_clone, Hb in Hc. injection Hc as <-. done.
Qed.

Lemma shortest_path_run (nodes : list Node) (edges : list Edge) (s e : string) (w : Z) :
  (forall ed, ed ∈ edges -> (0 <= weight ed)%Z) ->
  EdgesWellFormed nodes edges -> e ∈ map id nodes -> walk edges s e w ->
  exists l x a z, runDoubleLabeling nodes edges s e = Ok l /\ last l = Some x /\
    description x = DArrive e /\ nodeStates x !! e = Some a /\
    s_status a = permanent /\ s_distance a = JNum z /\
    parent_path edges s (nodeStates x) e z /\
    (forall w', walk edges s e w' -> (z <= w')%Z).
Proof.
  intros Hw Hwf He Hwk.
  destruct (run_reaches_end nodes edges s e w Hwf He Hwk) as (l & x & a & Hr & Hlast & Hd & Ha & Hp).
  assert (Hx : l !! pred (length l) = Some x) by (by rewrite <- last_lookup).
  destruct (run_parent_path nodes edges s e l Hr _ x e a Hx Ha Hp) as (z & Hz & Hpp).
  exists l, x, a, z. repeat split; try done.
  intros w' Hw'. destruct (run_optimal nodes edges s e l Hw Hr _ x Hx e a Ha Hp w' Hw')
    as (z' & Hz' & Hle). rewrite Hz in Hz'. injection Hz' as ->. done.
Qed.

(** ** Rendering of a step (src/components/DataTable.tsx, GraphCanvas.tsx) *)

(** DataTable: [state.distance === 0 && state.parent === node.id]. *)
Definition is_start_row (nid : string) (st : SnapState) : bool :=
  match s_distance st with JNum z => Z.eqb z 0 | JNull => false end &&
  match s_parent st with Some p => String.eqb p nid | None => false end.

(** GraphCanvas [getEdgeStyle]: [isPath] holds when an endpoint is permanent
    and has the other endpoint as its parent. *)
Definition edge_is_path (m : gmap string SnapState) (e : Edge) : bool :=
  match m !! target e with
  | Some t => bool_decide (s_parent t = Some (source e)) && bool_decide (s_status t = permanent)
  | None => false
  end ||
  match m !! source e with
  | Some s => bool_decide (s_parent s = Some (target e)) && bool_decide (s_status s = permanent)
  | None => false
  end.

Lemma run_self_parent (nodes : list Node) (edges : list Edge)
    (startNodeId endNodeId : string) (l : list AlgorithmStep) :
  runDoubleLabeling nodes edges startNodeId endNodeId = Ok l ->
  forall i x k a, l !! i = Some x -> nodeStates x !! k = Some a ->
    s_parent a = Some k -> k = startNodeId /\ s_distance a = JNum 0.
Proof.
  intros Hr i x k a Hx. revert k a.
  refine (run_store_invariant (PathInv edges startNodeId)
            (fun n => forall k a, n !! k = Some a -> s_parent a = Some k ->
               k = startNodeId /\ s_distance a = JNum 0)
            nodes edges startNodeId endNodeId l _ _ _ _ Hr i x Hx).
  - apply path_inv_init.
  - intros m d u a Hi Hs Ha. by eapply path_inv_finalize.
  - intros m u e0 su t Hi He Hu Hsu Ht Hpt Hlt. by eapply path_inv_relax.
  - intros m (_ & Hpar & _) k a Ha Hp. rewrite lookup_json_clone in Ha.
    destruct (m !! k) as [b|] eqn:Hb; [|discriminate]. injection Ha as <-.
    cbn in Hp. destruct (Hpar k b k Hb Hp) as [(_ & Hk & Hd)|(Hne & _)]; [|done].
    split; [done|]. cbn. by rewrite Hd.
Qed.

(** A row of the label table is flagged as the start row (distance 0 and
    parent itself) only for the start node. *)
Theorem x_start_row (nodes : list Node) (edges : list Edge)
    (startNodeId endNodeId : string) (l : list AlgorithmStep) :
  runDoubleLabeling nodes edges startNodeId endNodeId = Ok l ->
  forall i x k a, l !! i = Some x -> nodeStates x !! k = Some a ->
    is_start_row k a = true -> k = startNodeId.
Proof.
  intros Hr i x k a Hx Ha Hrow. unfold is_start_row in Hrow.
  apply andb_prop in Hrow as [_ Hp].
  destruct (s_parent a) as [p|] eqn:Hpa; [|discriminate].
  apply String.eqb_eq in Hp. subst p.
  by destruct (run_self_parent nodes edges startNodeId endNodeId l Hr i x k a Hx Ha Hpa).
Qed.

(** Every permanent node other than the start has, in the canvas, a
    highlighted edge joining it to its parent. *)
Theorem x_path_edge_drawn (nodes : list Node) (edges : list Edge)
    (startNodeId endNodeId : string) (l : list AlgorithmStep) :
  runDoubleLabeling nodes edges startNodeId endNodeId = Ok l ->
  forall i x k a, l !! i = Some x -> nodeStates x !! k = Some a ->
    s_status a = permanent -> k <> startNodeId ->
    exists e p, e ∈ edges /\ s_parent a = Some p /\ p <> k /\ joins e p k /\
      edge_is_path (nodeStates x) e = true.
Proof.
  intros Hr i x k a Hx Ha Hp Hk.
  destruct (run_parent_path nodes edges startNodeId endNodeId l Hr i x k a Hx Ha Hp)
    as (z & Hz & Hpp).
  inversion Hpp as [a' Ha' Hp' Hpar Hd Hks Hz0 | k' p e z' a' Ha' Hp' Hpar Hne He Hj Hpp' Hd Hk' Hz'];
    [congruence|].
  subst k'. rewrite Ha in Ha'. injection Ha' as <-.
  exists e, p. repeat split; try done.
  unfold edge_is_path. destruct Hj as [[Hs Ht]|[Hs Ht]].
  - rewrite Ht, Ha, Hs, Hpar. rewrite !bool_decide_eq_true_2 by done. done.
  - rewrite Hs, Ha, Ht, Hpar. rewrite !bool_decide_eq_true_2 by done.
    by rewrite orb_true_r.
Qed.

(** ** Correctness of the whole run *)

(** In every snapshot, following parents from a permanent node reaches the
    start through permanent nodes along edges of the graph, and the weights
    crossed add up to the node's distance. *)
Theorem x_parent_path (nodes : list Node) (edges : list Edge)
    (startNodeId endNodeId : string) (l : list AlgorithmStep) :
  runDoubleLabeling nodes edges startNodeId endNodeId = Ok l ->
  forall i x k a, l !! i = Some x -> nodeStates x !! k = Some a ->
    s_status a = permanent ->
    exists z, s_distance a = JNum z /\ parent_path edges startNodeId (nodeStates x) k z.
Proof. apply run_parent_path. Qed.

(** With nonnegative weights, the distance of a permanent node in any
    snapshot is at most the weight of every walk from the start to it. *)
Theorem x_optimal (nodes : list Node) (edges : list Edge)
    (startNodeId endNodeId : string) (l : list AlgorithmStep) :
  (forall ed, ed ∈ edges -> (0 <= weight ed)%Z) ->
  runDoubleLabeling nodes edges startNodeId endNodeId = Ok l ->
  forall i x k a, l !! i = Some x -> nodeStates x !! k = Some a ->
    s_status a = permanent ->
    forall w, walk edges startNodeId k w -> exists z, s_distance a = JNum z /\ (z <= w)%Z.
Proof.
  intros Hw Hr i x k a Hx Ha Hp w Hwk.
  exact (run_optimal nodes edges startNodeId endNodeId l Hw Hr i x Hx k a Ha Hp w Hwk).
Qed.

(** When the end node is a node joined to the start by a walk, and every
    edge joins node ids, the run returns a trace that ends on the arrival at
    the end node, which is then permanent. *)
Theorem x_reaches_end (nodes : list Node) (edges : list Edge)
    (startNodeId endNodeId : string) (w : Z) :
  EdgesWellFormed nodes edges -> endNodeId ∈ map id nodes ->
  walk edges startNodeId endNodeId w ->
  exists l x a, runDoubleLabeling nodes edges startNodeId endNodeId = Ok l /\
    last l = Some x /\ description x = DArrive endNodeId /\
    nodeStates x !! endNodeId = Some a /\ s_status a = permanent.
Proof. apply run_reaches_end. Qed.

(** With nonnegative weights, edges between node ids and a walk from the
    start to the end, the final step of the run holds for the end node a
    permanent distance [z] reached by a parent path of weight [z] and at most
    the weight of every walk: the shortest distance. *)
Theorem x_shortest_path (nodes : list Node) (edges : list Edge)
    (startNodeId endNodeId : string) (w : Z) :
  (forall ed, ed ∈ edges -> (0 <= weight ed)%Z) ->
  EdgesWellFormed nodes edges -> endNodeId ∈ map id nodes ->
  walk edges startNodeId endNodeId w ->
  exists l x a z, runDoubleLabeling nodes edges startNodeId endNodeId = Ok l /\
    last l = Some x /\ description x = DArrive endNodeId /\
    nodeStates x !! endNodeId = Some a /\ s_status a = permanent /\
    s_distance a = JNum z /\ parent_path edges startNodeId (nodeStates x) endNodeId z /\
    (forall w', walk edges startNodeId endNodeId w' -> (z <= w')%Z).
Proof. apply shortest_path_run. Qed.

(** ** Runs on the example graph *)

Definition initial_trace : list AlgorithmStep :=
  match runDoubleLabeling INITIAL_NODES INITIAL_EDGES "1" "6" with
  | Ok l => l
  | TypeError => []
  end.

Lemma initial_edges_wf : EdgesWellFormed INITIAL_NODES INITIAL_EDGES.
Proof.
  intros e He.
  repeat (apply elem_of_cons in He as [->|He];
          [split; apply list_elem_of_In; cbn; tauto|]).
  by apply elem_of_nil in He.
Qed.

Lemma initial_weights_nonneg (ed : Edge) : ed ∈ INITIAL_EDGES -> (0 <= weight ed)%Z.
Proof.
  intros He.
  repeat (apply elem_of_cons in He as [->|He]; [cbn; lia|]).
  by apply elem_of_nil in He.
Qed.

Lemma initial_walk_1_6 : walk INITIAL_EDGES "1" "6" 15.
Proof.
  apply (walk_cons _ _ "2" _ (mkEdge "e1" "1" "2" 4) 11);
    [apply list_elem_of_In; cbn; tauto | by left |].
  apply (walk_cons _ _ "4" _ (mkEdge "e4" "2" "4" 5) 6);
    [apply list_elem_of_In; cbn; tauto | by left |].
  apply (walk_cons _ _ "6" _ (mkEdge "e8" "4" "6" 6) 0);
    [apply list_elem_of_In; cbn; tauto | by left |].
  apply walk_nil.
Qed.

Lemma initial_end_node : "6" ∈ map id INITIAL_NODES.
Proof. apply list_elem_of_In. cbn. tauto. Qed.



Lemma x_step_index_witness :
  exists l, runDoubleLabeling INITIAL_NODES INITIAL_EDGES "1" "6" = Ok l /\
  forall i x, l !! i = Some x -> stepIndex x = i.
Proof.
  exists initial_trace. split; [vm_compute; reflexivity|].
  apply (x_step_index INITIAL_NODES INITIAL_EDGES "1" "6").
  vm_compute. reflexivity.
Defined.

Lemma x_first_step_witness :
  exists l, runDoubleLabeling INITIAL_NODES INITIAL_EDGES "1" "6" = Ok l /\
  exists x, l !! 0 = Some x /\ description x = DInit /\ activeNodeId x = None /\
    checkingEdgeId x = None /\ permanentNodes x = [] /\
    forall k, nodeStates x !! k =
      if decide (k ∈ map id INITIAL_NODES) then
        Some (if String.eqb k "1"
              then {| s_distance := JNum 0; s_parent := Some "1";
                      s_status := temporary |}
              else {| s_distance := JNull; s_parent := None; s_status := unvisited |})
      else None.
Proof.
  exists initial_trace. split; [vm_compute; reflexivity|].
  apply (x_first_step INITIAL_NODES INITIAL_EDGES "1" "6").
  vm_compute. reflexivity.
Defined.

Lemma x_snapshot_keys_witness :
  exists l, runDoubleLabeling INITIAL_NODES INITIAL_EDGES "1" "6" = Ok l /\
  forall i x k, l !! i = Some x -> (is_Some (nodeStates x !! k) <-> k ∈ map id INITIAL_NODES).
Proof.
  exists initial_trace. split; [vm_compute; reflexivity|].
  apply (x_snapshot_keys INITIAL_NODES INITIAL_EDGES "1" "6").
  vm_compute. reflexivity.
Defined.

Lemma x_label_consistency_witness :
  exists l, runDoubleLabeling INITIAL_NODES INITIAL_EDGES "1" "6" = Ok l /\
  forall i x k a, l !! i = Some x -> nodeStates x !! k = Some a ->
    (s_distance a = JNull <-> s_parent a = None) /\
    (s_status a = unvisited <-> s_distance a = JNull).
Proof.
  exists initial_trace. split; [vm_compute; reflexivity|].
  apply (x_label_consistency INITIAL_NODES INITIAL_EDGES "1" "6").
  vm_compute. reflexivity.
Defined.

Lemma x_active_node_witness :
  exists l, runDoubleLabeling INITIAL_NODES INITIAL_EDGES "1" "6" = Ok l /\
  forall i x, l !! i = Some x ->
    (forall u, activeNodeId x = Some u -> last (permanentNodes x) = Some u) /\
    (activeNodeId x = None -> description x = DInit \/ description x = DNoReach).
Proof.
  exists initial_trace. split; [vm_compute; reflexivity|].
  apply (x_active_node INITIAL_NODES INITIAL_EDGES "1" "6").
  vm_compute. reflexivity.
Defined.

Lemma x_checking_edge_witness :
  exists l, runDoubleLabeling INITIAL_NODES INITIAL_EDGES "1" "6" = Ok l /\
  forall i x eid, l !! i = Some x -> checkingEdgeId x = Some eid ->
    exists u e, activeNodeId x = Some u /\ e ∈ INITIAL_EDGES /\ edge_id e = eid /\
      (source e = u \/ target e = u) /\ other_end u e <> u /\
      ((exists d1 d2, description x = DUpdate (other_end u e) d1 d2 u) \/
       (exists d1 d2, description x = DNoImprove (other_end u e) d1 d2)).
Proof.
  exists initial_trace. split; [vm_compute; reflexivity|].
  apply (x_checking_edge INITIAL_NODES INITIAL_EDGES "1" "6").
  vm_compute. reflexivity.
Defined.

Lemma x_parent_path_witness :
  exists l, runDoubleLabeling INITIAL_NODES INITIAL_EDGES "1" "6" = Ok l /\
  forall i x k a, l !! i = Some x -> nodeStates x !! k = Some a ->
    s_status a = permanent ->
    exists z, s_distance a = JNum z /\ parent_path INITIAL_EDGES "1" (nodeStates x) k z.
Proof.
  exists initial_trace. split; [vm_compute; reflexivity|].
  apply (x_parent_path INITIAL_NODES INITIAL_EDGES "1" "6").
  vm_compute. reflexivity.
Defined.

Lemma x_optimal_witness :
  exists l, runDoubleLabeling INITIAL_NODES INITIAL_EDGES "1" "6" = Ok l /\
  forall i x k a, l !! i = Some x -> nodeStates x !! k = Some a ->
    s_status a = permanent ->
    forall w, walk INITIAL_EDGES "1" k w -> exists z, s_distance a = JNum z /\ (z <= w)%Z.
Proof.
  exists initial_trace. split; [vm_compute; reflexivity|].
  apply (x_optimal INITIAL_NODES INITIAL_EDGES "1" "6").
  - apply initial_weights_nonneg.
  - vm_compute. reflexivity.
Defined.

Lemma x_reaches_end_witness :
  exists l x a, runDoubleLabeling INITIAL_NODES INITIAL_EDGES "1" "6" = Ok l /\
    last l = Some x /\ description x = DArrive "6" /\
    nodeStates x !! "6" = Some a /\ s_status a = permanent.
Proof.
  apply (x_reaches_end INITIAL_NODES INITIAL_EDGES "1" "6" 15).
  - apply initial_edges_wf.
  - apply initial_end_node.
  - apply initial_walk_1_6.
Defined.

Lemma x_shortest_path_witness :
  exists l x a z, runDoubleLabeling INITIAL_NODES INITIAL_EDGES "1" "6" = Ok l /\
    last l = Some x /\ description x = DArrive "6" /\
    nodeStates x !! "6" = Some a /\ s_status a = permanent /\
    s_distance a = JNum z /\ parent_path INITIAL_EDGES "1" (nodeStates x) "6" z /\
    (forall w', walk INITIAL_EDGES "1" "6" w' -> (z <= w')%Z).
Proof.
  apply (x_shortest_path INITIAL_NODES INITIAL_EDGES "1" "6" 15).
  - apply initial_weights_nonneg.
  - apply initial_edges_wf.
  - apply initial_end_node.
  - apply initial_walk_1_6.
Defined.

Lemma x_start_row_witness :
  exists l, runDoubleLabeling INITIAL_NODES INITIAL_EDGES "1" "6" = Ok l /\
  forall i x k a, l !! i = Some x -> nodeStates x !! k = Some a ->
    is_start_row k a = true -> k = "1".
Proof.
  exists initial_trace. split; [vm_compute; reflexivity|].
  apply (x_start_row INITIAL_NODES INITIAL_EDGES "1" "6").
  vm_compute. reflexivity.
Defined.

Lemma x_path_edge_drawn_witness :
  exists l, runDoubleLabeling INITIAL_NODES INITIAL_EDGES "1" "6" = Ok l /\
  forall i x k a, l !! i = Some x -> nodeStates x !! k = Some a ->
    s_status a = permanent -> k <> "1" ->
    exists e p, e ∈ INITIAL_EDGES /\ s_parent a = Some p /\ p <> k /\ joins e p k /\
      edge_is_path (nodeStates x) e = true.
Proof.
  exists initial_trace. split; [vm_compute; reflexivity|].
  apply (x_path_edge_drawn INITIAL_NODES INITIAL_EDGES "1" "6").
  vm_compute. reflexivity.
Defined.


(** * The editor and the playback of the steps *)

From Stdlib Require Import QArith Qround Lqa.

(** ** The editor and the playback state (src/App.tsx, GraphCanvas.tsx) *)

(** [Math.floor(Math.random() * 9) + 2] for a draw [r] of [Math.random()]. *)
Definition random_weight (r : Q) : Z := (Qfloor (r * 9) + 2)%Z.

(** The state of [App]: the graph, the chosen ends, and the playback of the
    generated steps.  Node positions are not modelled. *)
Record AppState : Type := {
  a_nodes : list Node;
  a_edges : list Edge;
  a_start : string;          (* startNodeId *)
  a_end : string;            (* endNodeId *)
  a_steps : list AlgorithmStep;
  a_idx : Z;                 (* currentStepIndex *)
  a_playing : bool           (* isPlaying *)
}.

Definition app_init : AppState :=
  {| a_nodes := INITIAL_NODES; a_edges := INITIAL_EDGES; a_start := "1"; a_end := "6";
     a_steps := []; a_idx := (-1)%Z; a_playing := false |}.

Inductive Selection : Type :=
| SelNode (nid : string)
| SelEdge (eid : string).

Inductive AppEvent : Type :=
| EvAddNode (n : Node)                  (* handleBgClick in ADD_NODE mode *)
| EvAddEdge (eid s t : string) (r : Q)  (* handleMouseUp in ADD_EDGE mode *)
| EvMoveNode                            (* handleMouseMove while dragging *)
| EvCanvasDeleteNode (nid : string)     (* node context menu, confirmed *)
| EvCanvasDeleteEdge (eid : string)     (* edge context menu, confirmed *)
| EvSetStart (nid : string)
| EvSetEnd (nid : string)
| EvDelete (sel : option Selection)     (* toolbar handleDelete; None: confirmed clear *)
| EvPlay                                (* the start / pause button *)
| EvReset                               (* resetAlgorithm *)
| EvStepForward                         (* handleStep('forward') *)
| EvStepBackward                        (* handleStep('backward') *)
| EvTick.                               (* the playback effect and its interval *)

Definition with_graph (st : AppState) (ns : list Node) (es : list Edge) : AppState :=
  {| a_nodes := ns; a_edges := es; a_start := a_start st; a_end := a_end st;
     a_steps := a_steps st; a_idx := a_idx st; a_playing := a_playing st |}.

Definition with_ends (st : AppState) (s e : string) : AppState :=
  {| a_nodes := a_nodes st; a_edges := a_edges st; a_start := s; a_end := e;
     a_steps := a_steps st; a_idx := a_idx st; a_playing := a_playing st |}.

Definition with_play (st : AppState) (l : list AlgorithmStep) (i : Z) (p : bool)
  : AppState :=
  {| a_nodes := a_nodes st; a_edges := a_edges st; a_start := a_start st;
     a_end := a_end st; a_steps := l; a_idx := i; a_playing := p |}.

(** [resetAlgorithm] *)
Definition reset_algorithm (st : AppState) : AppState := with_play st [] (-1) false.

(** [nodes.filter(n => n.id !== nid)] *)
Definition drop_node (nid : string) (ns : list Node) : list Node :=
  List.filter (fun n => negb (String.eqb (id n) nid)) ns.

(** [edges.filter(e => e.source !== nid && e.target !== nid)] *)
Definition drop_incident (nid : string) (es : list Edge) : list Edge :=
  List.filter (fun e => negb (String.eqb (source e) nid) && negb (String.eqb (target e) nid)) es.

(** [edges.filter(e => e.id !== eid)] *)
Definition drop_edge (eid : string) (es : list Edge) : list Edge :=
  List.filter (fun e => negb (String.eqb (edge_id e) eid)) es.

(** [edges.some(edge => (edge.source === s && edge.target === t) ||
    (edge.source === t && edge.target === s))] *)
Definition edge_exists (es : list Edge) (s t : string) : bool :=
  existsb (fun e => (String.eqb (source e) s && String.eqb (target e) t) ||
                    (String.eqb (source e) t && String.eqb (target e) s)) es.

(** [generateSteps]: an alert when an end is unset; otherwise the run, whose
    TypeError escapes the handler and leaves the state as it was. *)
Definition generate_steps (st : AppState) : Result AppState :=
  if String.eqb (a_start st) "" || String.eqb (a_end st) "" then Ok st
  else
    l ← runDoubleLabeling (a_nodes st) (a_edges st) (a_start st) (a_end st);
    Ok (with_play st l 0 false).

Definition app_event (st : AppState) (ev : AppEvent) : Result AppState :=
  let len := Z.of_nat (length (a_steps st)) in
  match ev with
  | EvAddNode n => Ok (reset_algorithm (with_graph st (a_nodes st ++ [n]) (a_edges st)))
  | EvAddEdge eid s t r =>
      if negb (String.eqb s "") && negb (String.eqb t "") && negb (String.eqb t s) &&
         negb (edge_exists (a_edges st) s t)
      then Ok (reset_algorithm (with_graph st (a_nodes st)
             (a_edges st ++ [{| edge_id := eid; source := s; target := t;
                                weight := random_weight r |}])))
      else Ok st
  | EvMoveNode => Ok (reset_algorithm st)
  | EvCanvasDeleteNode nid =>
      Ok (reset_algorithm (with_graph st (drop_node nid (a_nodes st))
                                         (drop_incident nid (a_edges st))))
  | EvCanvasDeleteEdge eid =>
      Ok (reset_algorithm (with_graph st (a_nodes st) (drop_edge eid (a_edges st))))
  | EvSetStart nid => Ok (reset_algorithm (with_ends st nid (a_end st)))
  | EvSetEnd nid => Ok (reset_algorithm (with_ends st (a_start st) nid))
  | EvDelete (Some (SelNode nid)) =>
      let st1 := with_graph st (drop_node nid (a_nodes st)) (drop_incident nid (a_edges st)) in
      Ok (reset_algorithm
            (with_ends st1 (if String.eqb (a_start st) nid then "" else a_start st)
                           (if String.eqb (a_end st) nid then "" else a_end st)))
  | EvDelete (Some (SelEdge eid)) =>
      Ok (reset_algorithm (with_graph st (a_nodes st) (drop_edge eid (a_edges st))))
  | EvDelete None => Ok (with_ends (with_graph (reset_algorithm st) [] []) "" "")
  | EvPlay =>
      match a_steps st with
      | [] => generate_steps st
      | _ => Ok (with_play st (a_steps st) (a_idx st) (negb (a_playing st)))
      end
  | EvReset => Ok (reset_algorithm st)
  | EvStepForward =>
      Ok (with_play st (a_steps st)
            (if Z.ltb (a_idx st) (len - 1) then a_idx st + 1 else a_idx st) false)
  | EvStepBackward =>
      Ok (with_play st (a_steps st)
            (if Z.ltb 0 (a_idx st) then a_idx st - 1 else a_idx st) false)
  | EvTick =>
      if a_playing st && Z.ltb 0 len && Z.ltb (a_idx st) (len - 1) then
        if Z.leb (len - 1) (a_idx st) then Ok (with_play st (a_steps st) (a_idx st) false)
        else Ok (with_play st (a_steps st) (a_idx st + 1) (a_playing st))
      else if Z.leb (len - 1) (a_idx st) then Ok (with_play st (a_steps st) (a_idx st) false)
      else Ok st
  end.





(** ** Proofs about the editor and the playback *)















Lemma run_start_absent (nodes : list Node) (edges : list Edge) (s e : string) :
  s ∉ map id nodes -> nodes <> [] ->
  runDoubleLabeling nodes edges s e = Ok [init_step nodes s; noreach_step nodes s].
Proof.
  intros Hs Hne. unfold runDoubleLabeling.
  destruct nodes as [|n ns]; [done|]. cbn [length loop].
  rewrite scan_all_inf; [done|].
  intros n' Hn'. cbn [store snapshot]. exists (init_state (id n') s). split.
  - rewrite init_states_lookup. rewrite decide_True; [done|].
    apply list_elem_of_In, in_map. by apply list_elem_of_In.
  - unfold init_state. destruct (String.eqb (id n') s) eqn:Heq; [|done].
    apply String.eqb_eq in Heq. exfalso. apply Hs. rewrite <- Heq.
    apply list_elem_of_In, in_map. by apply list_elem_of_In.
Qed.

Lemma drop_node_absent (nid : string) (ns : list Node) : nid ∉ map id (drop_node nid ns).
Proof.
  intros Hin. apply list_elem_of_In, in_map_iff in Hin as (n & Hn & Hin).
  unfold drop_node in Hin. apply filter_In in Hin as [_ Hk].
  apply negb_true_iff, String.eqb_neq in Hk. done.
Qed.

Lemma play_no_steps (st : AppState) :
  a_steps st = [] -> app_event st EvPlay = generate_steps st.
Proof. intros Hs. cbn. by rewrite Hs. Qed.

Lemma generate_steps_run (st : AppState) :
  a_start st <> "" -> a_end st <> "" ->
  generate_steps st =
    (l ← runDoubleLabeling (a_nodes st) (a_edges st) (a_start st) (a_end st);
     Ok (with_play st l 0 false)).
Proof.
  intros Hs He. unfold generate_steps.
  apply String.eqb_neq in Hs. apply String.eqb_neq in He. by rewrite Hs, He.
Qed.




(** Deleting the start node from the toolbar clears the start, so Compute
    only alerts; deleting it from the node's context menu keeps the stale
    id, and Compute then runs from a node that is gone and reports at once
    that nothing is reachable. *)
Theorem x_app_delete_start (st : AppState) :
  a_start st <> "" -> a_end st <> "" ->
  (forall st', app_event st (EvDelete (Some (SelNode (a_start st)))) = Ok st' ->
     a_start st' = "" /\ app_event st' EvPlay = Ok st') /\
  (forall st', app_event st (EvCanvasDeleteNode (a_start st)) = Ok st' ->
     a_start st' = a_start st /\ (a_start st ∉ map id (a_nodes st')) /\
     (a_nodes st' <> [] ->
      app_event st' EvPlay =
        Ok (with_play st' [init_step (a_nodes st') (a_start st);
                           noreach_step (a_nodes st') (a_start st)] 0 false))).
Proof.
  intros Hs He. split.
  - intros st' Hst. cbn in Hst. rewrite String.eqb_refl in Hst. injection Hst as <-.
    cbn. split; [done|]. unfold generate_steps. cbn. done.
  - intros st' Hst. cbn in Hst. injection Hst as <-.
    split; [done|]. split; [apply drop_node_absent|]. intros Hne.
    rewrite play_no_steps, generate_steps_run by done.
    cbn [a_nodes a_start with_graph reset_algorithm with_play].
    rewrite run_start_absent; [done | apply drop_node_absent | done].
Qed.





Lemma x_app_delete_start_witness :
  (forall st', app_event app_init (EvDelete (Some (SelNode (a_start app_init)))) = Ok st' ->
     a_start st' = "" /\ app_event st' EvPlay = Ok st') /\
  (forall st', app_event app_init (EvCanvasDeleteNode (a_start app_init)) = Ok st' ->
     a_start st' = a_start app_init /\ (a_start app_init ∉ map id (a_nodes st')) /\
     (a_nodes st' <> [] ->
      app_event st' EvPlay =
        Ok (with_play st' [init_step (a_nodes st') (a_start app_init);
                           noreach_step (a_nodes st') (a_start app_init)] 0 false))).
Proof. apply x_app_delete_start; cbn; discriminate. Defined.

